(** * WebInputModal: the "Add Web Content" dialog of the chat composer

    A shallow embedding of
    [src/apps/chat/components/composer/WebInputModal.tsx]: the submit handler
    that cleans the entered links, the quick-add handler of the detected-URL
    chips, the controls that grow and shrink the field array, the
    detected-URLs section of the view, and the [useWebInputModal] hook.

    Handlers are written in a small writer monad that records, in order, the
    calls the handler makes to its collaborators (the URL validator, the
    snackbar store, the field-array operations of the form library and the
    callbacks received as props). *)

From Stdlib Require Import Ascii String.
From stdpp Require Import base decidable option numbers list strings pretty.

Local Open Scope string_scope.
Local Open Scope list_scope.

(** ** JavaScript strings *)

(** A JavaScript string is a sequence of UTF-16 code units. *)
Abbreviation jsstring := (list N).

(** The code units of an ASCII literal of the source. *)
Definition js (s : string) : jsstring :=
  map N_of_ascii (list_ascii_of_string s).

(** [WhiteSpace] and [LineTerminator] of ECMAScript, the code units that
    [String.prototype.trim] strips. *)
Definition isWhiteSpace (c : N) : bool :=
  (  (c =? 0x0009) || (c =? 0x000A) || (c =? 0x000B) || (c =? 0x000C)
  || (c =? 0x000D) || (c =? 0x0020) || (c =? 0x00A0) || (c =? 0x1680)
  || ((0x2000 <=? c) && (c <=? 0x200A))
  || (c =? 0x2028) || (c =? 0x2029) || (c =? 0x202F) || (c =? 0x205F)
  || (c =? 0x3000) || (c =? 0xFEFF))%N.

Fixpoint dropWhile {A} (p : A -> bool) (l : list A) : list A :=
  match l with
  | [] => []
  | x :: l' => if p x then dropWhile p l' else l
  end.

Definition trimStart (s : jsstring) : jsstring := dropWhile isWhiteSpace s.
Definition trimEnd (s : jsstring) : jsstring := rev (dropWhile isWhiteSpace (rev s)).

(** [s.trim()] *)
Definition trim (s : jsstring) : jsstring := trimEnd (trimStart s).

(** Truthiness of a string: [if (s)] holds for every string but the empty one. *)
Definition truthy (s : jsstring) : bool :=
  match s with [] => false | _ :: _ => true end.

(** Truthiness of a [string | null]. *)
Definition truthy_or_null (o : option jsstring) : bool :=
  match o with Some s => truthy s | None => false end.

(** "Empty or whitespace-only". *)
Definition blank (s : jsstring) : Prop := Forall (fun c => isWhiteSpace c = true) s.

#[global] Instance blank_dec (s : jsstring) : Decision (blank s).
Proof. unfold blank. apply _. Defined.

(** ** Data model *)

(** [const MAX_URLS = 5] *)
Definition MAX_URLS : nat := 5.

(** [type WebInputData = { url: string }] *)
Record WebInputData : Type := mkWebInputData { url : jsstring }.


(** The argument of [addSnackbar], with the fields this file sets. *)
Record Snackbar : Type := mkSnackbar {
  key : string;
  message : string;
  type : string;
  autoHideDuration : option N
}.

(** ** Calls to collaborators *)

Inductive call : Type :=
| asValidURL_call (textString : jsstring) (relaxProtocol : bool)
| addSnackbar (s : Snackbar)
| onWebLinks (urls : list WebInputData)
| onClose
| formFieldsUpdate (index : nat) (value : WebInputData)
| formFieldsAppend (value : WebInputData)
| formFieldsRemove (index : nat)
| fieldOnChange (index : nat) (value : jsstring).

(** [array.findIndex(p)]: the first index whose element satisfies [p], or -1. *)
Fixpoint findIndex_from {A} (p : A -> bool) (l : list A) (i : Z) : Z :=
  match l with
  | [] => (-1)%Z
  | x :: l' => if p x then i else findIndex_from p l' (i + 1)%Z
  end.

Definition findIndex {A} (p : A -> bool) (l : list A) : Z := findIndex_from p l 0%Z.

(** A computation returns a value and the calls it made, oldest first. *)
Definition M (A : Type) : Type := A * list call.

Definition ret {A} (a : A) : M A := (a, []).

Definition bind {A B} (m : M A) (k : A -> M B) : M B :=
  let r := k (fst m) in (fst r, snd m ++ snd r).

Definition emit (c : call) : M unit := (tt, [c]).

Notation "'let*' x := m 'in' k" := (bind m (fun x => k))
  (at level 10, x name, m at level 100, k at level 200).
Notation "m >>> k" := (bind m (fun _ => k))
  (at level 90, right associativity).

Definition calls {A} (m : M A) : list call := snd m.
Definition result {A} (m : M A) : A := fst m.

(** [links.reduce(f, init)] for a callback that makes calls. *)
Fixpoint reduce {A B} (f : A -> B -> M A) (l : list B) (init : A) : M A :=
  match l with
  | [] => ret init
  | x :: l' => let* acc := f init x in reduce f l' acc
  end.

Section WebInputModal.

(** The collaborators of [~/common/util/urlUtils] and
    [~/modules/youtube/youtube.utils], consumed as pure functions. *)
Variable asValidURL : jsstring -> bool -> option jsstring.
Variable extractUrlsFromText : jsstring -> list jsstring.
Variable extractYoutubeVideoIDFromURL : jsstring -> option jsstring.

Definition call_asValidURL (textString : jsstring) (relaxProtocol : bool)
  : M (option jsstring) :=
  (asValidURL textString relaxProtocol, [asValidURL_call textString relaxProtocol]).

(** *** handleSubmit *)

(** The callback of the [reduce] in [handleSubmit]. *)
Definition cleanStep (acc : list WebInputData) (link : WebInputData)
  : M (list WebInputData) :=
  let trimmed := trim (url link) in
  if truthy trimmed then
    let* relaxedUrl := call_asValidURL trimmed true in
    match relaxedUrl with
    | Some u => if truthy u then ret (acc ++ [mkWebInputData u]) else ret acc
    | None => ret acc
    end
  else ret acc.

Definition invalid_urls_snackbar : Snackbar :=
  {| key := "invalid-urls";
     message := "Please enter at least one valid web address";
     type := "issue";
     autoHideDuration := Some 2000%N |}.

(** [handleClose = () => onClose()] *)
Definition handleClose : M unit := emit onClose.

Definition handleSubmit (links : list WebInputData) : M unit :=
  let* cleanUrls := reduce cleanStep links [] in
  if Nat.eqb (length cleanUrls) 0 then
    emit (addSnackbar invalid_urls_snackbar)
  else
    emit (onWebLinks cleanUrls) >>> handleClose.

(** *** handleAddUrl *)

(** Derived values of a render: [urlFieldCount] and [canAddMoreUrls]. *)
Definition urlFieldCount (formFields : list WebInputData) : nat := length formFields.

Definition canAddMoreUrls (formFields : list WebInputData) : bool :=
  (urlFieldCount formFields <? MAX_URLS)%nat.

Definition max_urls_snackbar : Snackbar :=
  {| key := "max-urls";
     message := "Maximum " +:+ pretty MAX_URLS +:+ " URLs allowed";
     type := "precondition-fail";
     autoHideDuration := None |}.

Definition duplicate_url_snackbar : Snackbar :=
  {| key := "duplicate-url";
     message := "URL already added";
     type := "info";
     autoHideDuration := None |}.

(** The handler closes over the [formFields] of the render it was made in. *)
Definition handleAddUrl (formFields : list WebInputData) (newUrl : jsstring) : M unit :=
  if negb (canAddMoreUrls formFields) then
    emit (addSnackbar max_urls_snackbar)
  else
    let exists_ := existsb (fun f => bool_decide (url f = newUrl)) formFields in
    if exists_ then
      emit (addSnackbar duplicate_url_snackbar)
    else
      let emptyFieldIndex :=
        findIndex (fun field => negb (truthy (trim (url field)))) formFields in
      if (0 <=? emptyFieldIndex)%Z then
        emit (formFieldsUpdate (Z.to_nat emptyFieldIndex) (mkWebInputData newUrl))
      else
        emit (formFieldsAppend (mkWebInputData newUrl)).

(** *** The field array of the form library

    [useFieldArray] owns the array; the handlers only call its operations.
    The library keeps two things apart.  The form's values are live: an
    input's [onChange] writes its text there, and [update], [append] and
    [remove] act on them.  The [fields] that [useFieldArray] returns, which
    is what the component reads as [formFields], are a snapshot: typing does
    not change them, and every [update], [append] and [remove] replaces them
    by the values it leaves.  A write past the end would leave holes in the
    JavaScript array, which a list of [WebInputData] cannot hold: the
    operation is then undefined here. *)
Record FieldArray : Type := mkFieldArray {
  fa_fields : list WebInputData;
  fa_values : list WebInputData
}.

(** A field array whose snapshot is current. *)
Definition synced (l : list WebInputData) : FieldArray := mkFieldArray l l.

Definition fieldArray_call (c : call) (fa : FieldArray) : option FieldArray :=
  match c with
  | formFieldsUpdate index value =>
      if decide (index < length (fa_values fa))%nat
      then Some (synced (<[index := value]> (fa_values fa))) else None
  | fieldOnChange index value =>
      if decide (index < length (fa_values fa))%nat
      then Some (mkFieldArray (fa_fields fa)
                              (<[index := mkWebInputData value]> (fa_values fa)))
      else None
  | formFieldsAppend value => Some (synced (fa_values fa ++ [value]))
  | formFieldsRemove index => Some (synced (delete index (fa_values fa)))
  | asValidURL_call _ _ | addSnackbar _ | onWebLinks _ | onClose => Some fa
  end.

Fixpoint fieldArray_calls (cs : list call) (fa : FieldArray) : option FieldArray :=
  match cs with
  | [] => Some fa
  | c :: cs' =>
      match fieldArray_call c fa with
      | Some fa' => fieldArray_calls cs' fa'
      | None => None
      end
  end.

(** The field array after a quick-add of [newUrl]: the handler decides on the
    snapshot, the library applies its call to the values. *)
Definition quickAdd (newUrl : jsstring) (fa : FieldArray) : option FieldArray :=
  fieldArray_calls (calls (handleAddUrl (fa_fields fa) newUrl)) fa.

(** *** The view *)

Record FormState : Type := mkFormState {
  formFields : list WebInputData;
  formValues : list WebInputData;
  formIsDirty : bool;
  formIsValid : bool
}.

(** [useForm({ values: { links: [{ url: '' }] } })] *)
Definition initialLinks : list WebInputData := [mkWebInputData []].

Inductive Icon : Type := YouTubeIcon | LanguageRoundedIcon.

Inductive JsxChild : Type :=
| JsxNumber (n : nat)
| JsxText (s : string).

Record Chip : Type := mkChip {
  chip_key : nat;
  chip_onClick : M unit;
  chip_startDecorator : Icon;
  chip_children : jsstring
}.

Record DetectedUrls : Type := mkDetectedUrls {
  detected_title : list JsxChild;
  detected_chips : list Chip
}.

(** The "Detected URLs section": [{!!extractedUrlsCount && (...)}]. *)
Definition detectedUrlsSection (composerText : jsstring) (st : FormState)
  : option DetectedUrls :=
  let extractedComposerUrls := extractUrlsFromText composerText in
  let extractedUrlsCount := length extractedComposerUrls in
  if negb (extractedUrlsCount =? 0)%nat then
    Some {|
      detected_title :=
        [ JsxNumber extractedUrlsCount; JsxText " URL";
          JsxText (if (1 <? extractedUrlsCount)%nat then "s" else "");
          JsxText " found in your message" ];
      detected_chips :=
        imap (fun index url_ =>
                {| chip_key := index;
                   chip_onClick := handleAddUrl (formFields st) url_;
                   chip_startDecorator :=
                     if truthy_or_null (extractYoutubeVideoIDFromURL url_)
                     then YouTubeIcon else LanguageRoundedIcon;
                   chip_children := url_ |})
             extractedComposerUrls
    |}
  else None.

Record FieldRow : Type := mkFieldRow {
  row_required : bool;
  row_value : jsstring;
  row_onChange : jsstring -> M unit;
  row_remove : option (M unit)
}.

(** [formFields.map((field, index) => <Controller ... />)]: one row per
    field of the snapshot; the input shows the live value at its index. *)
Definition fieldRows (st : FormState) : list FieldRow :=
  imap (fun index field =>
          {| row_required := (index =? 0)%nat;
             row_value := match formValues st !! index with
                          | Some value => url value
                          | None => []
                          end;
             row_onChange := fun value => emit (fieldOnChange index value);
             row_remove :=
               if (1 <? urlFieldCount (formFields st))%nat
               then Some (emit (formFieldsRemove index)) else None |})
       (formFields st).

Record Button : Type := mkButton {
  button_disabled : bool;
  button_onClick : M unit
}.

(** [{formIsDirty && <Button disabled={!canAddMoreUrls} ...>Another</Button>}] *)
Definition anotherButton (st : FormState) : option Button :=
  if formIsDirty st then
    Some {| button_disabled := negb (canAddMoreUrls (formFields st));
            button_onClick := emit (formFieldsAppend (mkWebInputData [])) |}
  else None.

(** [formHandleSubmit(handleSubmit)]: the handler runs when every field
    passes its [required] rule. *)
Definition formHandleSubmit (handler : list WebInputData -> M unit)
    (links : list WebInputData) : M unit :=
  if forallb (fun field => truthy (url field)) links then handler links else ret tt.

(** The "Import" button submits the form's values. *)
Definition importButton (st : FormState) : Button :=
  {| button_disabled := negb (formIsValid st) || negb (formIsDirty st);
     button_onClick := formHandleSubmit handleSubmit (formValues st) |}.

(** What the user can do with the rendered form. *)
Inductive control : Type :=
| ChipClick (index : nat)
| InputChange (index : nat) (value : jsstring)
| RemoveClick (index : nat)
| AnotherClick
| ImportClick.

Definition click (b : Button) : option (M unit) :=
  if button_disabled b then None else Some (button_onClick b).

(** The handler a control runs, when the control is rendered and enabled. *)
Definition fire (composerText : jsstring) (st : FormState) (c : control)
  : option (M unit) :=
  match c with
  | ChipClick index =>
      match detectedUrlsSection composerText st with
      | Some section =>
          match detected_chips section !! index with
          | Some chip => Some (chip_onClick chip)
          | None => None
          end
      | None => None
      end
  | InputChange index value =>
      match fieldRows st !! index with
      | Some row => Some (row_onChange row value)
      | None => None
      end
  | RemoveClick index =>
      match fieldRows st !! index with
      | Some row => row_remove row
      | None => None
      end
  | AnotherClick =>
      match anotherButton st with
      | Some b => click b
      | None => None
      end
  | ImportClick => click (importButton st)
  end.

(** The field array of a form state. *)
Definition fieldArray_of (st : FormState) : FieldArray :=
  mkFieldArray (formFields st) (formValues st).

(** One interaction: the handler was made in the current render and reads
    its [formFields]; the library applies the handler's calls, and the next
    render gets the snapshot and the values they leave together with the
    library's own dirty and valid flags. *)
Inductive step (composerText : jsstring) : FormState -> FormState -> Prop :=
| step_control st c handler fa' dirty valid :
    fire composerText st c = Some handler ->
    fieldArray_calls (calls handler) (fieldArray_of st) = Some fa' ->
    step composerText st (mkFormState (fa_fields fa') (fa_values fa') dirty valid).

Inductive reachable (composerText : jsstring) : FormState -> Prop :=
| reachable_mount valid :
    reachable composerText (mkFormState initialLinks initialLinks false valid)
| reachable_step st st' :
    reachable composerText st -> step composerText st st' ->
    reachable composerText st'.

(** *** useWebInputModal *)

(** What the hook calls: its own state setter, and the callback it was
    given, named by the identity of the function value. *)
Inductive hookCall : Type :=
| setOpen (value : bool)
| onAttachWebLinks (callback : nat) (urls : list WebInputData).

(** The props of the [<WebInputModal>] element the hook creates. *)
Record WebInputModalProps : Type := mkProps {
  props_composerText : jsstring;
  props_onClose : list hookCall;
  props_onWebLinks : list WebInputData -> list hookCall
}.

(** The hook's cells: [React.useState(false)], the ref, and the cell of
    [React.useMemo] with the dependencies it was computed for. *)
Record HookState : Type := mkHookState {
  open : bool;
  composerTextRef : jsstring;
  memo : option ((nat * bool) * option WebInputModalProps)
}.

Definition useMemo {A} (cell : option ((nat * bool) * A))
    (factory : unit -> A) (deps : nat * bool) : A :=
  match cell with
  | Some (deps0, value) => if decide (deps0 = deps) then value else factory tt
  | None => factory tt
  end.

Record HookResult : Type := mkHookResult {
  openWebInputDialog : list hookCall;
  webInputDialogComponent : option WebInputModalProps
}.

(** One render of the hook. *)
Definition useWebInputModal (st : HookState) (callback : nat) (composerText : jsstring)
  : HookState * HookResult :=
  let composerTextRef_current := composerText in
  let webInputDialogComponent_ :=
    useMemo (memo st)
      (fun _ =>
         if open st then
           Some {| props_composerText := composerTextRef_current;
                   props_onClose := [setOpen false];
                   props_onWebLinks := fun urls => [onAttachWebLinks callback urls] |}
         else None)
      (callback, open st) in
  ( {| open := open st;
       composerTextRef := composerTextRef_current;
       memo := Some ((callback, open st), webInputDialogComponent_) |},
    {| openWebInputDialog := [setOpen true];
       webInputDialogComponent := webInputDialogComponent_ |} ).

(** A call of the modal, through the props it was rendered with. *)
Definition withProps (p : WebInputModalProps) (c : call) : list hookCall :=
  match c with
  | onClose => props_onClose p
  | onWebLinks urls => props_onWebLinks p urls
  | _ => []
  end.

Inductive hookEvent : Type :=
| ParentRender (callback : nat) (composerText : jsstring)
| OpenWebInputDialog
| DialogClose
| DialogSubmit (links : list WebInputData).

(** A mounted hook: its cells, the arguments of the last render and what
    that render returned. *)
Record Mounted : Type := mkMounted {
  hook : HookState;
  hookArgs : nat * jsstring;
  rendered : HookResult
}.

Definition setState (st : HookState) (c : hookCall) : HookState :=
  match c with
  | setOpen value =>
      {| open := value; composerTextRef := composerTextRef st; memo := memo st |}
  | onAttachWebLinks _ _ => st
  end.

Definition render (st : HookState) (args : nat * jsstring) : Mounted :=
  let r := useWebInputModal st (fst args) (snd args) in
  {| hook := fst r; hookArgs := args; rendered := snd r |}.

Definition mount (args : nat * jsstring) : Mounted :=
  render {| open := false; composerTextRef := snd args; memo := None |} args.

(** The calls an event makes; a dialog that is not rendered takes no event. *)
Definition handle (m : Mounted) (e : hookEvent) : list hookCall :=
  match e with
  | ParentRender _ _ => []
  | OpenWebInputDialog => openWebInputDialog (rendered m)
  | DialogClose =>
      match webInputDialogComponent (rendered m) with
      | Some p => flat_map (withProps p) (calls handleClose)
      | None => []
      end
  | DialogSubmit links =>
      match webInputDialogComponent (rendered m) with
      | Some p => flat_map (withProps p) (calls (handleSubmit links))
      | None => []
      end
  end.

Definition after (m : Mounted) (e : hookEvent) : Mounted :=
  render (foldl setState (hook m) (handle m e))
         match e with
         | ParentRender callback composerText => (callback, composerText)
         | _ => hookArgs m
         end.

(** The hook after a sequence of events, with every call made so far. *)
Definition run (m : Mounted) (es : list hookEvent) : Mounted * list hookCall :=
  foldl (fun s e => (after (fst s) e, snd s ++ handle (fst s) e)) (m, []) es.

(** "Opened and not yet closed": some [setOpen(true)] with no
    [setOpen(false)] after it. *)
Definition dialogOpened (log : list hookCall) : Prop :=
  exists before later, log = before ++ setOpen true :: later /\
                       ~ In (setOpen false) later.

End WebInputModal.

(** ** The URL validator *)

(** An explicit [http://] or [https://] scheme. *)
Definition hasExplicitScheme (s : jsstring) : bool :=
  bool_decide (js "http://" `prefix_of` s) || bool_decide (js "https://" `prefix_of` s).

(** Modelled from the spec: [asValidURL] of [~/common/util/urlUtils] is not
    part of this file.  The glossary's "relaxed URL": a user-entered string is
    treated as a URL even without an explicit scheme, defaulting to
    [https://]; without the relaxed flag a scheme is required.  Nothing is
    said about which addresses are rejected, so only the empty string is. *)
Definition asValidURL_spec (textString : jsstring) (relaxProtocol : bool)
  : option jsstring :=
  if truthy textString then
    if hasExplicitScheme textString then Some textString
    else if relaxProtocol then Some (js "https://" ++ textString)
    else None
  else None.


(** ** Notions used in the statements *)

(** The lists handed to [onWebLinks] in a log of calls. *)
Definition webLinksHanded (log : list call) : list (list WebInputData) :=
  omap (fun c => match c with onWebLinks urls => Some urls | _ => None end) log.

(** The validator calls in a log, as (text, relaxed flag). *)
Definition validations (log : list call) : list (jsstring * bool) :=
  omap (fun c => match c with asValidURL_call t r => Some (t, r) | _ => None end) log.

(** A log without its validator calls: what the user and the caller observe. *)
Definition observable (log : list call) : list call :=
  List.filter (fun c => match c with asValidURL_call _ _ => false | _ => true end) log.

Section Cleaning.

Variable asValidURL : jsstring -> bool -> option jsstring.

(** An entry is kept when its trimmed url is non-empty and validates. *)
Definition passes (link : WebInputData) : bool :=
  truthy (trim (url link)) && truthy_or_null (asValidURL (trim (url link)) true).

(** The cleaned list in the words of the specification: the normalization
    of each kept entry, in field order. *)
Definition cleaned (links : list WebInputData) : list WebInputData :=
  map (fun link => mkWebInputData (default [] (asValidURL (trim (url link)) true)))
      (List.filter passes links).

End Cleaning.

(** Quick-add is refused when no field can be added or the url is there. *)
Definition refused (newUrl : jsstring) (fields : list WebInputData) : bool :=
  negb (canAddMoreUrls fields) || existsb (fun f => bool_decide (url f = newUrl)) fields.

(** The open state that a log of hook calls leaves: the value of the last
    [setOpen], starting from [useState(false)]. *)
Definition lastOpen (o : bool) (c : hookCall) : bool :=
  match c with setOpen value => value | onAttachWebLinks _ _ => o end.

Definition openAfter (log : list hookCall) : bool := foldl lastOpen false log.

(** A memoized dialog element fits the dependencies it was computed for. *)
Definition component_ok (callback : nat) (o : bool) (v : option WebInputModalProps)
  : Prop :=
  match v with
  | Some p =>
      o = true /\ props_onClose p = [setOpen false] /\
      props_onWebLinks p = (fun urls => [onAttachWebLinks callback urls])
  | None => o = false
  end.

Definition memo_ok (st : HookState) : Prop :=
  match memo st with
  | Some (deps, v) => component_ok (fst deps) (snd deps) v
  | None => True
  end.

Definition mounted_ok (m : Mounted) : Prop :=
  memo_ok (hook m) /\
  component_ok (fst (hookArgs m)) (open (hook m))
               (webInputDialogComponent (rendered m)) /\
  openWebInputDialog (rendered m) = [setOpen true].

(** The calls that change the field array, and the snackbar calls. *)
Definition isFieldOp (c : call) : bool :=
  match c with
  | formFieldsUpdate _ _ | formFieldsAppend _ | formFieldsRemove _
  | fieldOnChange _ _ => true
  | asValidURL_call _ _ | addSnackbar _ | onWebLinks _ | onClose => false
  end.

Definition isSnackbar (c : call) : bool :=
  match c with addSnackbar _ => true | _ => false end.

(** A text with something in it and no whitespace at either end. *)
Definition trimmed (t : jsstring) : Prop :=
  t <> [] /\
  (forall c, head t = Some c -> isWhiteSpace c = false) /\
  (forall c, last t = Some c -> isWhiteSpace c = false).

(** Clicking the chips of [urls] one after the other, each click running
    against the fields the click before it left. *)
Definition quickAddAll (urls : list jsstring) (fa : FieldArray)
  : option FieldArray :=
  foldl (fun o newUrl => match o with
                         | Some fa' => quickAdd newUrl fa'
                         | None => None
                         end)
        (Some fa) urls.

(** ** Strings *)

Lemma dropWhile_nil {A} (p : A -> bool) (l : list A) :
  dropWhile p l = [] <-> Forall (fun x => p x = true) l.
Proof.
  induction l as [|x l IH]; simpl.
  - split; [constructor | reflexivity].
  - destruct (p x) eqn:Hx.
    + rewrite IH. split; [by constructor | by inversion 1].
    + split; [discriminate | inversion 1; congruence].
Qed.

Lemma dropWhile_head {A} (p : A -> bool) (l : list A) x l' :
  dropWhile p l = x :: l' -> p x = false.
Proof.
  induction l as [|y l IH]; simpl; [discriminate|].
  destruct (p y) eqn:Hy; [assumption|]. intros [= -> _]. assumption.
Qed.

Lemma truthy_false (s : jsstring) : truthy s = false <-> s = [].
Proof. destruct s; simpl; split; congruence. Qed.

Lemma truthy_true (s : jsstring) : truthy s = true <-> s <> [].
Proof. destruct s; simpl; split; congruence. Qed.

(** Trimming leaves nothing exactly for the empty and whitespace-only strings. *)
Lemma trim_nil_blank (s : jsstring) : trim s = [] <-> blank s.
Proof.
  unfold trim, trimEnd, trimStart, blank. split.
  - intros H. apply (f_equal (@rev N)) in H. rewrite rev_involutive in H. simpl in H.
    apply dropWhile_nil in H.
    destruct (dropWhile isWhiteSpace s) as [|c s'] eqn:Hs.
    + by apply dropWhile_nil.
    + apply dropWhile_head in Hs as Hc.
      apply Forall_rev in H. rewrite rev_involutive in H.
      inversion H; congruence.
  - intros H. apply dropWhile_nil in H. rewrite H. reflexivity.
Qed.

Lemma not_truthy_trim (s : jsstring) : negb (truthy (trim s)) = true <-> blank s.
Proof. rewrite negb_true_iff, truthy_false. apply trim_nil_blank. Qed.

(** ** The writer monad *)

Lemma calls_bind {A B} (m : M A) (k : A -> M B) :
  calls (bind m k) = calls m ++ calls (k (result m)).
Proof. reflexivity. Qed.

Lemma result_bind {A B} (m : M A) (k : A -> M B) :
  result (bind m k) = result (k (result m)).
Proof. reflexivity. Qed.

(** ** handleSubmit *)

Section SubmitFacts.

Variable asValidURL : jsstring -> bool -> option jsstring.

Lemma cleanStep_result acc link :
  result (cleanStep asValidURL acc link) = acc ++ cleaned asValidURL [link].
Proof.
  unfold cleanStep, cleaned, passes, result, bind, call_asValidURL. simpl.
  destruct (truthy (trim (url link))); simpl; [|by rewrite app_nil_r].
  destruct (asValidURL (trim (url link)) true) as [u|] eqn:E; simpl;
    [destruct (truthy u)|]; simpl; by rewrite ?E, ?app_nil_r.
Qed.

Lemma cleanStep_calls acc link :
  calls (cleanStep asValidURL acc link) =
  if truthy (trim (url link)) then [asValidURL_call (trim (url link)) true] else [].
Proof.
  unfold cleanStep.
  destruct (truthy (trim (url link))); [|reflexivity].
  rewrite calls_bind. simpl.
  destruct (asValidURL (trim (url link)) true) as [u|]; simpl;
    [destruct (truthy u)|]; reflexivity.
Qed.

Lemma cleaned_cons link links :
  cleaned asValidURL (link :: links) =
  cleaned asValidURL [link] ++ cleaned asValidURL links.
Proof. unfold cleaned. simpl. destruct (passes asValidURL link); reflexivity. Qed.

(** The [reduce] of [handleSubmit] computes the cleaned list. *)
Lemma reduce_cleanStep_result links acc :
  result (reduce (cleanStep asValidURL) links acc) = acc ++ cleaned asValidURL links.
Proof.
  revert acc. induction links as [|link links IH]; intros acc; cbn [reduce].
  - simpl. by rewrite app_nil_r.
  - rewrite result_bind, IH, cleanStep_result, (cleaned_cons link links).
    by rewrite app_assoc.
Qed.

(** ... and calls the validator once per entry that is not blank. *)
Lemma reduce_cleanStep_calls links acc :
  calls (reduce (cleanStep asValidURL) links acc) =
  map (fun link => asValidURL_call (trim (url link)) true)
      (List.filter (fun link => truthy (trim (url link))) links).
Proof.
  revert acc. induction links as [|link links IH]; intros acc; cbn [reduce];
    [reflexivity|].
  rewrite calls_bind, IH, cleanStep_calls. simpl.
  destruct (truthy (trim (url link))); reflexivity.
Qed.

Lemma handleSubmit_calls links :
  calls (handleSubmit asValidURL links) =
  map (fun link => asValidURL_call (trim (url link)) true)
      (List.filter (fun link => truthy (trim (url link))) links)
  ++ match cleaned asValidURL links with
     | [] => [addSnackbar invalid_urls_snackbar]
     | _ :: _ => [onWebLinks (cleaned asValidURL links); onClose]
     end.
Proof.
  unfold handleSubmit. rewrite calls_bind, reduce_cleanStep_calls, reduce_cleanStep_result.
  f_equal. simpl. destruct (cleaned asValidURL links); reflexivity.
Qed.

Lemma webLinksHanded_validations (l : list WebInputData) (f : WebInputData -> jsstring) :
  webLinksHanded (map (fun link => asValidURL_call (f link) true) l) = [].
Proof. induction l; simpl; auto. Qed.

Lemma observable_validations (l : list WebInputData) (f : WebInputData -> jsstring) :
  observable (map (fun link => asValidURL_call (f link) true) l) = [].
Proof.
  induction l as [|x l IH]; [reflexivity|]. exact IH.
Qed.

Lemma webLinksHanded_handleSubmit links :
  webLinksHanded (calls (handleSubmit asValidURL links)) =
    match cleaned asValidURL links with
    | [] => []
    | _ :: _ => [cleaned asValidURL links]
    end.
Proof.
  rewrite handleSubmit_calls. unfold webLinksHanded at 1.
  rewrite omap_app. fold (webLinksHanded
    (map (fun link => asValidURL_call (trim (url link)) true)
         (List.filter (fun link => truthy (trim (url link))) links))).
  rewrite webLinksHanded_validations. simpl.
  destruct (cleaned asValidURL links); reflexivity.
Qed.

End SubmitFacts.

(** *** C1 *)

(** C1. On submit, what is handed to [onWebLinks] is exactly the cleaned
    list: in field order, [asValidURL(trim(url), true)] of each entry whose
    trimmed url is non-empty and validates; blank and invalid entries
    contribute nothing.  (The callback receives this list whenever it is
    called, which is when the list is not empty.) *)
Theorem C1_handed_list_is_cleaned
    (asValidURL : jsstring -> bool -> option jsstring) (links : list WebInputData) :
  result (reduce (cleanStep asValidURL) links []) = cleaned asValidURL links /\
  webLinksHanded (calls (handleSubmit asValidURL links)) =
    match cleaned asValidURL links with
    | [] => []
    | _ :: _ => [cleaned asValidURL links]
    end.
Proof.
  split.
  - apply (reduce_cleanStep_result asValidURL links []).
  - apply webLinksHanded_handleSubmit.
Qed.

(** *** C3 *)

(** C3. When the cleaned list is empty, the only thing [handleSubmit] does
    besides validating is to show the 'issue' snackbar "Please enter at least
    one valid web address": neither [onWebLinks] nor [onClose] is called.
    When it is not empty, [onWebLinks] is called with it, and then
    [onClose]. *)
Theorem C3_submit_outcome
    (asValidURL : jsstring -> bool -> option jsstring) (links : list WebInputData) :
  observable (calls (handleSubmit asValidURL links)) =
    if decide (cleaned asValidURL links = []) then
      [addSnackbar {| key := "invalid-urls";
                      message := "Please enter at least one valid web address";
                      type := "issue";
                      autoHideDuration := Some 2000%N |}]
    else
      [onWebLinks (cleaned asValidURL links); onClose].
Proof.
  rewrite handleSubmit_calls. unfold observable at 1. rewrite List.filter_app.
  fold (observable (map (fun link => asValidURL_call (trim (url link)) true)
          (List.filter (fun link => truthy (trim (url link))) links))).
  rewrite observable_validations. simpl.
  destruct (cleaned asValidURL links); reflexivity.
Qed.

(** *** C7 *)

Lemma validations_handleSubmit
    (asValidURL : jsstring -> bool -> option jsstring) (links : list WebInputData) :
  validations (calls (handleSubmit asValidURL links)) =
  map (fun link => (trim (url link), true))
      (List.filter (fun link => truthy (trim (url link))) links).
Proof.
  rewrite handleSubmit_calls. unfold validations. rewrite omap_app.
  replace (omap _ (match cleaned asValidURL links with
                   | [] => [addSnackbar invalid_urls_snackbar]
                   | _ :: _ => [onWebLinks (cleaned asValidURL links); onClose]
                   end)) with (@nil (jsstring * bool))
    by (destruct (cleaned asValidURL links); reflexivity).
  rewrite app_nil_r.
  induction (List.filter _ links) as [|x l IH]; [reflexivity|].
  cbn. f_equal. exact IH.
Qed.





(** ** handleAddUrl *)

(** [findIndex] agrees with the first match of a decidable predicate. *)
Lemma findIndex_from_list_find {A} (p : A -> bool) (P : A -> Prop)
    `{!forall x, Decision (P x)} (l : list A) (i : Z) :
  (forall x, p x = true <-> P x) ->
  findIndex_from p l i =
    match list_find P l with
    | Some (k, _) => (i + Z.of_nat k)%Z
    | None => (-1)%Z
    end.
Proof.
  intros Hp. revert i. induction l as [|x l IH]; intros i; simpl; [reflexivity|].
  destruct (decide (P x)) as [HP|HP].
  - apply Hp in HP. rewrite HP. simpl. lia.
  - destruct (p x) eqn:Hx; [exfalso; apply HP, Hp, Hx|].
    rewrite IH. destruct (list_find P l) as [[k y]|]; simpl; lia.
Qed.

Lemma findIndex_blank (fields : list WebInputData) :
  findIndex (fun field => negb (truthy (trim (url field)))) fields =
    match list_find (fun field => blank (url field)) fields with
    | Some (k, _) => Z.of_nat k
    | None => (-1)%Z
    end.
Proof.
  unfold findIndex.
  rewrite (findIndex_from_list_find _ (fun field => blank (url field))).
  - destruct (list_find _ fields) as [[k y]|]; reflexivity.
  - intros x. apply not_truthy_trim.
Qed.

Lemma existsb_url (newUrl : jsstring) (fields : list WebInputData) :
  existsb (fun f => bool_decide (url f = newUrl)) fields = true <->
  In newUrl (map url fields).
Proof.
  rewrite existsb_exists, in_map_iff. split.
  - intros (f & Hf & He). apply bool_decide_eq_true in He. eauto.
  - intros (f & He & Hf). exists f. split; [assumption|]. by apply bool_decide_eq_true.
Qed.

Lemma canAddMoreUrls_false (fields : list WebInputData) :
  canAddMoreUrls fields = false <-> MAX_URLS <= length fields.
Proof. unfold canAddMoreUrls, urlFieldCount. rewrite Nat.ltb_ge. reflexivity. Qed.

Lemma canAddMoreUrls_true (fields : list WebInputData) :
  canAddMoreUrls fields = true <-> length fields < MAX_URLS.
Proof. unfold canAddMoreUrls, urlFieldCount. rewrite Nat.ltb_lt. reflexivity. Qed.

(** The one call [handleAddUrl] makes. *)
Lemma handleAddUrl_calls (fields : list WebInputData) (newUrl : jsstring) :
  calls (handleAddUrl fields newUrl) =
    if negb (canAddMoreUrls fields) then [addSnackbar max_urls_snackbar]
    else if existsb (fun f => bool_decide (url f = newUrl)) fields
    then [addSnackbar duplicate_url_snackbar]
    else match list_find (fun field => blank (url field)) fields with
         | Some (k, _) => [formFieldsUpdate k (mkWebInputData newUrl)]
         | None => [formFieldsAppend (mkWebInputData newUrl)]
         end.
Proof.
  unfold handleAddUrl.
  destruct (negb (canAddMoreUrls fields)); [reflexivity|].
  destruct (existsb _ fields); [reflexivity|].
  cbv zeta. rewrite findIndex_blank.
  destruct (list_find _ fields) as [[k y]|]; simpl.
  - destruct (Z.leb_spec 0 (Z.of_nat k)); [|lia]. by rewrite Nat2Z.id.
  - reflexivity.
Qed.

(** The field array after a quick-add: the decision is taken on the
    snapshot, the operation is applied to the values. *)
Lemma quickAdd_cases (newUrl : jsstring) (fa : FieldArray) :
  quickAdd newUrl fa =
  if refused newUrl (fa_fields fa) then Some fa
  else match list_find (fun field => blank (url field)) (fa_fields fa) with
       | Some (k, _) =>
           if decide (k < length (fa_values fa))
           then Some (synced (<[k := mkWebInputData newUrl]> (fa_values fa)))
           else None
       | None => Some (synced (fa_values fa ++ [mkWebInputData newUrl]))
       end.
Proof.
  unfold quickAdd, refused. rewrite handleAddUrl_calls.
  destruct (negb (canAddMoreUrls (fa_fields fa))); [reflexivity|].
  destruct (existsb _ (fa_fields fa)); [reflexivity|]. simpl.
  destruct (list_find _ (fa_fields fa)) as [[k y]|]; simpl; [|reflexivity].
  by destruct (decide _).
Qed.

(** With as many values as fields the index found in the snapshot is an
    index of the values, and the quick-add is defined. *)
Lemma quickAdd_defined (newUrl : jsstring) (fa : FieldArray) :
  length (fa_fields fa) = length (fa_values fa) ->
  quickAdd newUrl fa =
  Some (if refused newUrl (fa_fields fa) then fa
        else match list_find (fun field => blank (url field)) (fa_fields fa) with
             | Some (k, _) => synced (<[k := mkWebInputData newUrl]> (fa_values fa))
             | None => synced (fa_values fa ++ [mkWebInputData newUrl])
             end).
Proof.
  intros Hlen. rewrite quickAdd_cases.
  destruct (refused newUrl (fa_fields fa)); [reflexivity|].
  destruct (list_find _ (fa_fields fa)) as [[k y]|] eqn:Hfind; [|reflexivity].
  apply list_find_Some in Hfind as (Hk & _ & _). apply lookup_lt_Some in Hk.
  destruct (decide (k < length (fa_values fa))); [reflexivity | lia].
Qed.

(** On a current snapshot. *)
Lemma quickAdd_synced (newUrl : jsstring) (fields : list WebInputData) :
  quickAdd newUrl (synced fields) =
  Some (synced (if refused newUrl fields then fields
                else match list_find (fun field => blank (url field)) fields with
                     | Some (k, _) => <[k := mkWebInputData newUrl]> fields
                     | None => fields ++ [mkWebInputData newUrl]
                     end)).
Proof.
  rewrite quickAdd_defined by reflexivity. simpl.
  destruct (refused newUrl fields); [reflexivity|].
  by destruct (list_find _ fields) as [[k y]|].
Qed.

Lemma refused_after_update (newUrl : jsstring) (fields : list WebInputData) k :
  k < length fields ->
  existsb (fun f => bool_decide (url f = newUrl)) (<[k := mkWebInputData newUrl]> fields)
  = true.
Proof.
  intros Hk. apply existsb_url, in_map_iff. exists (mkWebInputData newUrl).
  split; [reflexivity|]. apply list_elem_of_In, list_elem_of_lookup.
  exists k. by apply list_lookup_insert_eq.
Qed.

Lemma refused_after_append (newUrl : jsstring) (fields : list WebInputData) :
  existsb (fun f => bool_decide (url f = newUrl)) (fields ++ [mkWebInputData newUrl])
  = true.
Proof.
  apply existsb_url. rewrite map_app. apply in_or_app. right. by left.
Qed.

(** *** C5 *)



(** *** C6 *)

(** C6. The code's comment says "replace the first empty field, or append",
    but [handleAddUrl] looks for the empty field in [formFields], which does
    not see what was typed since the last array operation.  On the form as
    mounted, after "a.com" has been typed into its only field, no field is
    empty, the count is below 5 and the chip's url is new; the chip is
    reachable and accepted, and instead of appending a second field the
    quick-add replaces the typed "a.com": one field is left, holding the
    chip's url. *)
Theorem C6_quick_add_overwrites_typed_field :
  reachable asValidURL_spec (fun _ => [js "https://b.org"]) (fun _ => None)
    (js "see https://b.org")
    (mkFormState [mkWebInputData []] [mkWebInputData (js "a.com")] true true) /\
  fire asValidURL_spec (fun _ => [js "https://b.org"]) (fun _ => None)
    (js "see https://b.org")
    (mkFormState [mkWebInputData []] [mkWebInputData (js "a.com")] true true)
    (ChipClick 0)
    = Some (handleAddUrl [mkWebInputData []] (js "https://b.org")) /\
  refused (js "https://b.org") [mkWebInputData (js "a.com")] = false /\
  list_find (fun field => blank (url field)) [mkWebInputData (js "a.com")] = None /\
  quickAdd (js "https://b.org")
    (mkFieldArray [mkWebInputData []] [mkWebInputData (js "a.com")])
    = Some (synced [mkWebInputData (js "https://b.org")]).
Proof.
  split; [|split; [|split; [|split]]].
  - apply reachable_step with (st := mkFormState initialLinks initialLinks false true);
      [apply reachable_mount|].
    by apply (step_control _ _ _ _ _ (InputChange 0 (js "a.com"))
                (emit (fieldOnChange 0 (js "a.com")))
                (mkFieldArray [mkWebInputData []] [mkWebInputData (js "a.com")])).
  - reflexivity.
  - reflexivity.
  - apply list_find_None. constructor; [|constructor].
    intros H. apply trim_nil_blank in H. vm_compute in H. discriminate H.
  - rewrite quickAdd_cases. simpl.
    destruct (decide (blank [])) as [_|Hb]; [reflexivity|].
    exfalso. apply Hb. constructor.
Qed.

(** *** C9 *)

(** C9. Quick-add is idempotent: adding the same url a second time leaves
    the field array, snapshot and values, as the first quick-add left it.
    The array has as many values as fields, as in every state of the form. *)
Theorem C9_quick_add_idempotent (newUrl : jsstring) (fa : FieldArray) :
  length (fa_fields fa) = length (fa_values fa) ->
  exists fa1,
    quickAdd newUrl fa = Some fa1 /\
    quickAdd newUrl fa1 = Some fa1.
Proof.
  intros Hlen. rewrite quickAdd_defined by assumption.
  destruct (refused newUrl (fa_fields fa)) eqn:Hr.
  - exists fa. split; [reflexivity|]. by rewrite quickAdd_cases, Hr.
  - destruct (list_find _ (fa_fields fa)) as [[k y]|] eqn:Hfind.
    + eexists. split; [reflexivity|].
      apply list_find_Some in Hfind as (Hk & _ & _). apply lookup_lt_Some in Hk.
      rewrite quickAdd_synced. unfold refused at 1.
      rewrite (refused_after_update newUrl (fa_values fa) k) by lia.
      by rewrite orb_true_r.
    + eexists. split; [reflexivity|].
      rewrite quickAdd_synced. unfold refused at 1.
      by rewrite refused_after_append, orb_true_r.
Qed.

Lemma C9_quick_add_idempotent_witness :
  exists fa1,
    quickAdd (js "b.org") (mkFieldArray [mkWebInputData []] [mkWebInputData (js "a.com")])
      = Some fa1 /\
    quickAdd (js "b.org") fa1 = Some fa1.
Proof.
  apply (C9_quick_add_idempotent (js "b.org")
           (mkFieldArray [mkWebInputData []] [mkWebInputData (js "a.com")])).
  reflexivity.
Defined.

(** *** C2 *)





(** ** The detected-URLs section *)

Lemma map_imap_pointwise {A B C} (f : B -> C) (g : nat -> A -> B) (h : A -> C)
    (l : list A) :
  (forall i x, f (g i x) = h x) -> map f (imap g l) = map h l.
Proof.
  revert g. induction l as [|x l IH]; intros g Hg; simpl; [reflexivity|].
  rewrite Hg. f_equal. apply IH. intros i y. apply Hg.
Qed.

Lemma map_imap_index {A B} (f : B -> nat) (g : nat -> A -> B) (l : list A) (k : nat) :
  (forall i x, f (g i x) = k + i) -> map f (imap g l) = seq k (length l).
Proof.
  revert g k. induction l as [|x l IH]; intros g k Hg; simpl; [reflexivity|].
  rewrite Hg, Nat.add_0_r. f_equal. apply IH. intros i y. simpl. rewrite Hg. lia.
Qed.

(** C8. The detected-URLs section shows exactly the list that
    [extractUrlsFromText] returns for the composer text: one chip per url, in
    the list's order, labelled with the url and adding that url when clicked,
    under a title that starts with the length of the list; for an empty list
    the section is not rendered. *)
Theorem C8_detected_section_shows_extracted_urls
    (extractUrlsFromText : jsstring -> list jsstring)
    (extractYoutubeVideoIDFromURL : jsstring -> option jsstring)
    (composerText : jsstring) (st : FormState) :
  match detectedUrlsSection extractUrlsFromText extractYoutubeVideoIDFromURL
          composerText st with
  | None => extractUrlsFromText composerText = []
  | Some section =>
      extractUrlsFromText composerText <> [] /\
      map chip_children (detected_chips section) = extractUrlsFromText composerText /\
      map chip_key (detected_chips section)
        = seq 0 (length (extractUrlsFromText composerText)) /\
      map chip_onClick (detected_chips section)
        = map (handleAddUrl (formFields st)) (extractUrlsFromText composerText) /\
      head (detected_title section)
        = Some (JsxNumber (length (extractUrlsFromText composerText)))
  end.
Proof.
  unfold detectedUrlsSection.
  destruct (extractUrlsFromText composerText) as [|u urls] eqn:Hurls;
    [reflexivity|].
  cbn [length Nat.eqb negb detected_chips detected_title head].
  split; [discriminate|]. split; [|split; [|split]].
  - rewrite (map_imap_pointwise _ _ id) by reflexivity. apply map_id.
  - change (S (length urls)) with (length (u :: urls)).
    apply (map_imap_index _ _ _ 0). reflexivity.
  - apply map_imap_pointwise. reflexivity.
  - reflexivity.
Qed.

(** ** The number of fields *)

Lemma fieldArray_calls_app (cs1 cs2 : list call) (fa : FieldArray) :
  fieldArray_calls (cs1 ++ cs2) fa =
  match fieldArray_calls cs1 fa with
  | Some fa' => fieldArray_calls cs2 fa'
  | None => None
  end.
Proof.
  revert fa. induction cs1 as [|c cs1 IH]; intros fa; simpl; [reflexivity|].
  destruct (fieldArray_call c fa); [apply IH | reflexivity].
Qed.

Lemma fieldArray_calls_validations {A} (l : list A) (f : A -> jsstring)
    (fa : FieldArray) :
  fieldArray_calls (map (fun x => asValidURL_call (f x) true) l) fa = Some fa.
Proof. induction l; simpl; auto. Qed.

(** Submitting does not touch the field array. *)
Lemma fieldArray_calls_handleSubmit
    (asValidURL : jsstring -> bool -> option jsstring)
    (links : list WebInputData) (fa : FieldArray) :
  fieldArray_calls (calls (handleSubmit asValidURL links)) fa = Some fa.
Proof.
  rewrite handleSubmit_calls, fieldArray_calls_app, fieldArray_calls_validations.
  destruct (cleaned asValidURL links); reflexivity.
Qed.

Lemma fieldArray_calls_formHandleSubmit
    (asValidURL : jsstring -> bool -> option jsstring)
    (links : list WebInputData) (fa : FieldArray) :
  fieldArray_calls (calls (formHandleSubmit (handleSubmit asValidURL) links)) fa
  = Some fa.
Proof.
  unfold formHandleSubmit. destruct (forallb _ links); [|reflexivity].
  apply fieldArray_calls_handleSubmit.
Qed.

(** A quick-add keeps as many values as fields, and adds at most one field,
    below the maximum only. *)
Lemma quickAdd_length (newUrl : jsstring) (fa fa' : FieldArray) :
  length (fa_fields fa) = length (fa_values fa) ->
  quickAdd newUrl fa = Some fa' ->
  length (fa_fields fa') = length (fa_values fa') /\
  (length (fa_fields fa') = length (fa_fields fa) \/
   (length (fa_fields fa') = S (length (fa_fields fa)) /\
    length (fa_fields fa) < MAX_URLS)).
Proof.
  intros Hlen. rewrite quickAdd_defined by assumption. intros [= <-]. unfold refused.
  destruct (canAddMoreUrls (fa_fields fa)) eqn:Hc; simpl; [|by split; [|left]].
  apply canAddMoreUrls_true in Hc.
  destruct (existsb _ (fa_fields fa)); [by split; [|left]|].
  destruct (list_find _ (fa_fields fa)) as [[k y]|]; simpl.
  - split; [reflexivity|]. left. rewrite length_insert. lia.
  - split; [reflexivity|]. right. rewrite length_app. simpl. lia.
Qed.

Lemma cleaned_length
    (asValidURL : jsstring -> bool -> option jsstring) (links : list WebInputData) :
  length (cleaned asValidURL links) <= length links.
Proof. unfold cleaned. rewrite length_map. apply List.filter_length_le. Qed.

Section FormFacts.

Variable asValidURL : jsstring -> bool -> option jsstring.
Variable extractUrlsFromText : jsstring -> list jsstring.
Variable extractYoutubeVideoIDFromURL : jsstring -> option jsstring.
Variable composerText : jsstring.

Local Abbreviation fire_ :=
  (fire asValidURL extractUrlsFromText extractYoutubeVideoIDFromURL composerText).
Local Abbreviation step_ :=
  (step asValidURL extractUrlsFromText extractYoutubeVideoIDFromURL composerText).
Local Abbreviation reachable_ :=
  (reachable asValidURL extractUrlsFromText extractYoutubeVideoIDFromURL composerText).

(** A chip runs the quick-add of one of the extracted urls. *)
Lemma fire_ChipClick st index handler :
  fire_ st (ChipClick index) = Some handler ->
  exists newUrl, handler = handleAddUrl (formFields st) newUrl.
Proof.
  simpl. unfold detectedUrlsSection.
  destruct (negb _); [|discriminate]. cbn [detected_chips].
  rewrite list_lookup_imap.
  destruct (extractUrlsFromText composerText !! index) as [u|]; simpl;
    [|discriminate].
  intros [= <-]. by exists u.
Qed.

Lemma fire_InputChange st index value handler :
  fire_ st (InputChange index value) = Some handler ->
  index < length (formFields st) /\ handler = emit (fieldOnChange index value).
Proof.
  simpl. unfold fieldRows. rewrite list_lookup_imap.
  destruct (formFields st !! index) as [f|] eqn:Hf; simpl; [|discriminate].
  intros [= <-]. split; [by apply lookup_lt_Some in Hf | reflexivity].
Qed.

(** The remove control exists only when there is more than one field. *)
Lemma fire_RemoveClick st index handler :
  fire_ st (RemoveClick index) = Some handler ->
  1 < length (formFields st) /\ index < length (formFields st) /\
  handler = emit (formFieldsRemove index).
Proof.
  simpl. unfold fieldRows. rewrite list_lookup_imap.
  destruct (formFields st !! index) as [f|] eqn:Hf; simpl; [|discriminate].
  unfold urlFieldCount. destruct (Nat.ltb_spec 1 (length (formFields st)));
    [|discriminate].
  intros [= <-]. split; [assumption|]. split; [|reflexivity].
  by apply lookup_lt_Some in Hf.
Qed.

(** The "Another" button works only below the maximum. *)
Lemma fire_AnotherClick st handler :
  fire_ st AnotherClick = Some handler ->
  length (formFields st) < MAX_URLS /\
  handler = emit (formFieldsAppend (mkWebInputData [])).
Proof.
  simpl. unfold anotherButton, click.
  destruct (formIsDirty st); [|discriminate]. simpl.
  destruct (canAddMoreUrls (formFields st)) eqn:Hc; simpl; [|discriminate].
  intros [= <-]. split; [by apply canAddMoreUrls_true | reflexivity].
Qed.

Lemma fire_ImportClick st handler :
  fire_ st ImportClick = Some handler ->
  handler = formHandleSubmit (handleSubmit asValidURL) (formValues st).
Proof.
  simpl. unfold click, importButton. simpl.
  destruct (negb (formIsValid st) || negb (formIsDirty st)); [discriminate|].
  by intros [= <-].
Qed.

(** One interaction keeps as many values as fields, and the number of fields
    between 1 and [MAX_URLS]. *)
Lemma step_field_count st st' :
  step_ st st' ->
  length (formFields st) = length (formValues st) /\
  1 <= length (formFields st) <= MAX_URLS ->
  length (formFields st') = length (formValues st') /\
  1 <= length (formFields st') <= MAX_URLS.
Proof.
  intros Hstep [Hlen Hb]. destruct Hstep as [st c handler fa' dirty valid Hfire Hrun].
  cbn [formFields formValues]. destruct c as [index|index value|index| |].
  - apply fire_ChipClick in Hfire as [newUrl ->].
    change (quickAdd newUrl (fieldArray_of st) = Some fa') in Hrun.
    apply quickAdd_length in Hrun; [|exact Hlen]. simpl in Hrun. lia.
  - apply fire_InputChange in Hfire as [Hi ->]. simpl in Hrun.
    destruct (decide (index < length (formValues st))); [|lia].
    injection Hrun as <-. simpl. rewrite length_insert. lia.
  - apply fire_RemoveClick in Hfire as (H1 & Hi & ->). simpl in Hrun.
    injection Hrun as <-. simpl.
    rewrite length_delete by (apply lookup_lt_is_Some; lia). lia.
  - apply fire_AnotherClick in Hfire as [Hlt ->]. simpl in Hrun.
    injection Hrun as <-. simpl. rewrite length_app. simpl. lia.
  - apply fire_ImportClick in Hfire as ->.
    rewrite fieldArray_calls_formHandleSubmit in Hrun. injection Hrun as <-.
    simpl. lia.
Qed.

Lemma reachable_field_count st :
  reachable_ st ->
  length (formFields st) = length (formValues st) /\
  1 <= length (formFields st) <= MAX_URLS.
Proof.
  induction 1 as [valid|st st' _ IH Hstep].
  - unfold MAX_URLS. simpl. lia.
  - by apply (step_field_count st st').
Qed.

(** The lists the Import button hands to the caller are cleaned values. *)
Lemma importButton_handed st urls :
  In urls (webLinksHanded (calls (button_onClick (importButton asValidURL st)))) ->
  urls = cleaned asValidURL (formValues st).
Proof.
  simpl. unfold formHandleSubmit.
  destruct (forallb _ (formValues st)); [|intros []].
  rewrite webLinksHanded_handleSubmit.
  destruct (cleaned asValidURL (formValues st)); [intros [] | intros [<-|[]]].
  reflexivity.
Qed.

End FormFacts.

(** *** C4 *)

(** C4. The form is mounted with one field, and in every state the user can
    reach the number of fields is between 1 and [MAX_URLS] = 5.  At 5 fields
    the "Another" button does nothing and every quick-add chip leaves the
    array, fields and values, as it is; with one field there is no remove
    control.  So no list handed to the caller has more than 5 urls. *)
Theorem C4_field_count_bounded
    (asValidURL : jsstring -> bool -> option jsstring)
    (extractUrlsFromText : jsstring -> list jsstring)
    (extractYoutubeVideoIDFromURL : jsstring -> option jsstring)
    (composerText : jsstring) (st : FormState) :
  reachable asValidURL extractUrlsFromText extractYoutubeVideoIDFromURL composerText st ->
  MAX_URLS = 5 /\ length initialLinks = 1 /\
  1 <= urlFieldCount (formFields st) <= MAX_URLS /\
  (urlFieldCount (formFields st) = MAX_URLS ->
     fire asValidURL extractUrlsFromText extractYoutubeVideoIDFromURL composerText
          st AnotherClick = None /\
     forall index handler,
       fire asValidURL extractUrlsFromText extractYoutubeVideoIDFromURL composerText
            st (ChipClick index) = Some handler ->
       fieldArray_calls (calls handler) (fieldArray_of st) = Some (fieldArray_of st)) /\
  (urlFieldCount (formFields st) = 1 ->
     forall index,
       fire asValidURL extractUrlsFromText extractYoutubeVideoIDFromURL composerText
            st (RemoveClick index) = None) /\
  (forall urls,
     In urls (webLinksHanded (calls (button_onClick (importButton asValidURL st)))) ->
     length urls <= MAX_URLS).
Proof.
  intros Hreach. apply reachable_field_count in Hreach as [Hlen Hb].
  unfold urlFieldCount.
  split; [reflexivity|]. split; [reflexivity|]. split; [exact Hb|].
  split; [|split].
  - intros Hmax. split.
    + destruct (fire _ _ _ _ st AnotherClick) as [h|] eqn:Hf; [|reflexivity].
      apply fire_AnotherClick in Hf as [Hlt _]. lia.
    + intros index handler Hf. apply fire_ChipClick in Hf as [newUrl ->].
      change (quickAdd newUrl (fieldArray_of st) = Some (fieldArray_of st)).
      rewrite quickAdd_cases. unfold refused. cbn [fieldArray_of fa_fields].
      assert (canAddMoreUrls (formFields st) = false) as ->
        by (apply canAddMoreUrls_false; lia).
      reflexivity.
  - intros Hone index.
    destruct (fire _ _ _ _ st (RemoveClick index)) as [h|] eqn:Hf; [|reflexivity].
    apply fire_RemoveClick in Hf as (H1 & _). lia.
  - intros urls Hin. apply importButton_handed in Hin as ->.
    pose proof (cleaned_length asValidURL (formValues st)). lia.
Qed.

Lemma C4_field_count_bounded_witness :
  reachable asValidURL_spec (fun _ : jsstring => [js "https://big-agi.com"])
    (fun _ : jsstring => @None jsstring) (js "see https://big-agi.com")
    (mkFormState (mkWebInputData (js "a.com") :: replicate 4 (mkWebInputData []))
       (mkWebInputData (js "a.com") :: replicate 4 (mkWebInputData [])) true true) /\
  urlFieldCount (formFields
    (mkFormState (mkWebInputData (js "a.com") :: replicate 4 (mkWebInputData []))
       (mkWebInputData (js "a.com") :: replicate 4 (mkWebInputData [])) true true)) = MAX_URLS /\
  fire asValidURL_spec (fun _ : jsstring => [js "https://big-agi.com"])
    (fun _ : jsstring => @None jsstring) (js "see https://big-agi.com")
    (mkFormState (mkWebInputData (js "a.com") :: replicate 4 (mkWebInputData []))
       (mkWebInputData (js "a.com") :: replicate 4 (mkWebInputData [])) true true)
    AnotherClick = None /\
  (forall urls,
     In urls (webLinksHanded (calls (button_onClick (importButton asValidURL_spec
       (mkFormState (mkWebInputData (js "a.com") :: replicate 4 (mkWebInputData []))
       (mkWebInputData (js "a.com") :: replicate 4 (mkWebInputData [])) true true))))) ->
     length urls <= MAX_URLS).
Proof.
  set (extract := fun _ : jsstring => [js "https://big-agi.com"]).
  set (youtube := fun _ : jsstring => @None jsstring).
  set (text := js "see https://big-agi.com").
  set (st := mkFormState (mkWebInputData (js "a.com") :: replicate 4 (mkWebInputData []))
                         (mkWebInputData (js "a.com") :: replicate 4 (mkWebInputData []))
                         true true).
  assert (Hreach : reachable asValidURL_spec extract youtube text st).
  { pose (field0 := mkWebInputData (js "a.com")).
    pose (empty := mkWebInputData []).
    pose (full := fun n => field0 :: replicate n empty).
    apply reachable_step with (st := mkFormState (full 3) (full 3) true true);
      [|exact (step_control asValidURL_spec extract youtube text
                 (mkFormState (full 3) (full 3) true true) AnotherClick
                 (emit (formFieldsAppend empty)) (synced (full 4)) true true
                 eq_refl eq_refl)].
    apply reachable_step with (st := mkFormState (full 2) (full 2) true true);
      [|exact (step_control asValidURL_spec extract youtube text
                 (mkFormState (full 2) (full 2) true true) AnotherClick
                 (emit (formFieldsAppend empty)) (synced (full 3)) true true
                 eq_refl eq_refl)].
    apply reachable_step with (st := mkFormState (full 1) (full 1) true true);
      [|exact (step_control asValidURL_spec extract youtube text
                 (mkFormState (full 1) (full 1) true true) AnotherClick
                 (emit (formFieldsAppend empty)) (synced (full 2)) true true
                 eq_refl eq_refl)].
    apply reachable_step with (st := mkFormState initialLinks [field0] true true).
    - apply reachable_step with (st := mkFormState initialLinks initialLinks false true);
        [apply reachable_mount|].
      exact (step_control asValidURL_spec extract youtube text
               (mkFormState initialLinks initialLinks false true)
               (InputChange 0 (js "a.com")) (emit (fieldOnChange 0 (js "a.com")))
               (mkFieldArray initialLinks [field0]) true true eq_refl eq_refl).
    - exact (step_control asValidURL_spec extract youtube text
               (mkFormState initialLinks [field0] true true) AnotherClick
               (emit (formFieldsAppend empty)) (synced (full 1)) true true
               eq_refl eq_refl). }
  pose proof (C4_field_count_bounded asValidURL_spec extract youtube text st Hreach)
    as (_ & _ & _ & Hfull & _ & Hhanded).
  split; [exact Hreach|]. split; [reflexivity|].
  split; [exact (proj1 (Hfull eq_refl)) | exact Hhanded].
Defined.

(** ** useWebInputModal *)

Lemma render_ok (st : HookState) (args : nat * jsstring) :
  memo_ok st ->
  mounted_ok (render st args) /\ open (hook (render st args)) = open st.
Proof.
  intros Hmemo. unfold mounted_ok, memo_ok, render, useWebInputModal. simpl.
  split; [|reflexivity].
  assert (component_ok (fst args) (open st)
            (useMemo (memo st)
               (fun _ => if open st
                         then Some {| props_composerText := snd args;
                                      props_onClose := [setOpen false];
                                      props_onWebLinks :=
                                        fun urls => [onAttachWebLinks (fst args) urls] |}
                         else None)
               (fst args, open st))) as Hc.
  { unfold useMemo, memo_ok in *.
    destruct (memo st) as [[deps0 v0]|].
    - destruct (decide (deps0 = (fst args, open st))) as [->|_]; [exact Hmemo|].
      destruct (open st); simpl; auto.
    - destruct (open st); simpl; auto. }
  auto.
Qed.

Lemma memo_foldl_setState (cs : list hookCall) (st : HookState) :
  memo (foldl setState st cs) = memo st.
Proof.
  revert st. induction cs as [|c cs IH]; intros st; simpl; [reflexivity|].
  rewrite IH. by destruct c.
Qed.

Lemma open_foldl_setState (cs : list hookCall) (st : HookState) :
  open (foldl setState st cs) = foldl lastOpen (open st) cs.
Proof.
  revert st. induction cs as [|c cs IH]; intros st; simpl; [reflexivity|].
  rewrite IH. by destruct c.
Qed.

Lemma flat_map_withProps_validations {A} (p : WebInputModalProps) (l : list A)
    (f : A -> jsstring) :
  flat_map (withProps p) (map (fun x => asValidURL_call (f x) true) l) = [].
Proof. induction l; simpl; auto. Qed.

Section HookFacts.

Variable asValidURL : jsstring -> bool -> option jsstring.

Lemma after_ok (m : Mounted) (e : hookEvent) :
mounted_ok m -> mounted_ok (after asValidURL m e).
Proof.
intros (Hmemo & _ & _). unfold after. apply render_ok.
unfold memo_ok. by rewrite memo_foldl_setState.
Qed.

Lemma open_after (m : Mounted) (e : hookEvent) :
mounted_ok m ->
open (hook (after asValidURL m e)) = foldl lastOpen (open (hook m)) (handle asValidURL m e).
Proof.
intros (Hmemo & _ & _). unfold after.
destruct (render_ok (foldl setState (hook m) (handle asValidURL m e))
            match e with
            | ParentRender callback composerText => (callback, composerText)
            | _ => hookArgs m
            end) as [_ ->].
- unfold memo_ok. by rewrite memo_foldl_setState.
- apply open_foldl_setState.
Qed.

(** Closing the dialog only resets the open state. *)
Lemma handle_DialogClose (m : Mounted) :
mounted_ok m ->
handle asValidURL m DialogClose = if open (hook m) then [setOpen false] else [].
Proof.
intros (_ & Hc & _). simpl.
destruct (webInputDialogComponent (rendered m)) as [p|]; simpl in *.
- destruct Hc as (-> & -> & _). reflexivity.
- by rewrite Hc.
Qed.

(** A submit calls the hook's callback with the cleaned links and closes, or
  does nothing that the hook sees. *)
Lemma handle_DialogSubmit (m : Mounted) (links : list WebInputData) :
mounted_ok m ->
handle asValidURL m (DialogSubmit links) =
  if open (hook m) then
    match cleaned asValidURL links with
    | [] => []
    | _ :: _ => [onAttachWebLinks (fst (hookArgs m)) (cleaned asValidURL links);
                 setOpen false]
    end
  else [].
Proof.
intros (_ & Hc & _). unfold handle.
destruct (webInputDialogComponent (rendered m)) as [p|]; cbn [component_ok] in Hc.
- destruct Hc as (-> & Hclose & Hlinks).
  rewrite handleSubmit_calls, flat_map_app, flat_map_withProps_validations.
  destruct (cleaned asValidURL links); cbn [flat_map withProps app];
    [reflexivity|].
  by rewrite Hclose, Hlinks.
- by rewrite Hc.
Qed.

Lemma run_snoc (m : Mounted) (es : list hookEvent) (e : hookEvent) :
run asValidURL m (es ++ [e]) =
(after asValidURL (fst (run asValidURL m es)) e,
 snd (run asValidURL m es) ++ handle asValidURL (fst (run asValidURL m es)) e).
Proof. unfold run. by rewrite foldl_snoc. Qed.

Lemma run_ok (args : nat * jsstring) (es : list hookEvent) :
mounted_ok (fst (run asValidURL (mount args) es)) /\
open (hook (fst (run asValidURL (mount args) es)))
  = openAfter (snd (run asValidURL (mount args) es)).
Proof.
induction es as [|e es [IHok IHopen]] using rev_ind.
- simpl. destruct (render_ok {| open := false; composerTextRef := snd args;
                                memo := None |} args) as [Hok Hopen]; [exact I|].
  split; [exact Hok|]. exact Hopen.
- rewrite run_snoc. cbn [fst snd]. split.
  + by apply after_ok.
  + rewrite open_after by assumption. unfold openAfter.
    by rewrite foldl_app, IHopen.
Qed.

End HookFacts.

Lemma foldl_lastOpen_true (later : list hookCall) :
  ~ In (setOpen false) later -> foldl lastOpen true later = true.
Proof.
  induction later as [|c later IH]; intros Hnot; simpl; [reflexivity|].
  destruct c as [[]|cb urls]; simpl.
  - apply IH. intros H. apply Hnot. by right.
  - exfalso. apply Hnot. by left.
  - apply IH. intros H. apply Hnot. by right.
Qed.

(** "Opened and not yet closed" is what the last [setOpen] says. *)
Lemma dialogOpened_openAfter (log : list hookCall) :
  dialogOpened log <-> openAfter log = true.
Proof.
  unfold openAfter. split.
  - intros (before & later & -> & Hnot).
    rewrite foldl_app. simpl. by apply foldl_lastOpen_true.
  - induction log as [|c log IH] using rev_ind; [discriminate|].
    rewrite foldl_snoc. destruct c as [[]|cb urls]; simpl.
    + intros _. exists log, []. split; [reflexivity | intros []].
    + discriminate.
    + intros H. destruct (IH H) as (before & later & -> & Hnot).
      exists before, (later ++ [onAttachWebLinks cb urls]). split.
      * by rewrite <- app_assoc.
      * intros Hin. apply in_app_or in Hin as [Hin|[Hin|[]]]; [by apply Hnot|].
        discriminate Hin.
Qed.

(** The element is there exactly when the open state is set. *)
Lemma component_open (m : Mounted) :
  mounted_ok m ->
  (is_Some (webInputDialogComponent (rendered m)) <-> open (hook m) = true).
Proof.
  intros (_ & Hc & _).
  destruct (webInputDialogComponent (rendered m)) as [p|]; simpl in Hc.
  - destruct Hc as (-> & _). split; [reflexivity | by eexists].
  - rewrite Hc. split; [by intros [p [=]] | discriminate].
Qed.

(** *** C10 *)

(** C10. After any sequence of renders, openings, closings and submits, the
    hook returns a dialog element exactly when the dialog has been opened and
    not closed since.  [openWebInputDialog] opens it: it calls
    [setOpen(true)], and the dialog element is returned after it; nothing
    else opens it.  Closing or
    cancelling calls nothing but [setOpen(false)]: the callback
    [onAttachWebLinks] is not invoked, and the dialog is closed afterwards. *)
Theorem C10_dialog_rendered_iff_opened
    (asValidURL : jsstring -> bool -> option jsstring)
    (args : nat * jsstring) (es : list hookEvent) :
  (is_Some (webInputDialogComponent (rendered (fst (run asValidURL (mount args) es))))
     <-> dialogOpened (snd (run asValidURL (mount args) es))) /\
  handle asValidURL (fst (run asValidURL (mount args) es)) OpenWebInputDialog
    = [setOpen true] /\
  is_Some (webInputDialogComponent
             (rendered (after asValidURL (fst (run asValidURL (mount args) es))
                          OpenWebInputDialog))) /\
  (forall e, In (setOpen true) (handle asValidURL (fst (run asValidURL (mount args) es)) e)
             -> e = OpenWebInputDialog) /\
  handle asValidURL (fst (run asValidURL (mount args) es)) DialogClose
    = (if open (hook (fst (run asValidURL (mount args) es)))
       then [setOpen false] else []) /\
  (forall callback urls,
     ~ In (onAttachWebLinks callback urls)
          (handle asValidURL (fst (run asValidURL (mount args) es)) DialogClose)) /\
  open (hook (after asValidURL (fst (run asValidURL (mount args) es)) DialogClose))
    = false.
Proof.
  destruct (run_ok asValidURL args es) as [Hok Hopen].
  set (m := fst (run asValidURL (mount args) es)) in *.
  set (log := snd (run asValidURL (mount args) es)) in *.
  assert (Hopening : handle asValidURL m OpenWebInputDialog = [setOpen true])
    by (by destruct Hok as (_ & _ & Ho)).
  split; [|split; [|split; [|split; [|split; [|split]]]]].
  - rewrite dialogOpened_openAfter, <- Hopen. by apply component_open.
  - exact Hopening.
  - apply component_open; [by apply after_ok|].
    by rewrite open_after, Hopening.
  - intros e Hin. destruct e as [cb text| | |links]; [destruct Hin|reflexivity| |].
    + rewrite handle_DialogClose in Hin by assumption.
      destruct (open (hook m)); [destruct Hin as [[=]|[]] | destruct Hin].
    + rewrite handle_DialogSubmit in Hin by assumption.
      destruct (open (hook m)); [|destruct Hin].
      destruct (cleaned asValidURL links); [destruct Hin|].
      destruct Hin as [[=]|[[=]|[]]].
  - by apply handle_DialogClose.
  - intros callback urls Hin. rewrite handle_DialogClose in Hin by assumption.
    destruct (open (hook m)); [destruct Hin as [[=]|[]] | destruct Hin].
  - rewrite open_after, handle_DialogClose by assumption.
    by destruct (open (hook m)).
Qed.

(** ** Further properties of handleSubmit *)

Lemma dropWhile_split {A} (p : A -> bool) (l : list A) :
  exists pre, l = pre ++ dropWhile p l /\ Forall (fun x => p x = true) pre.
Proof.
  induction l as [|x l (pre & Hl & Hpre)]; simpl.
  - by exists [].
  - destruct (p x) eqn:Hx.
    + exists (x :: pre). split; [by rewrite Hl at 1 | by constructor].
    + by exists [].
Qed.

Lemma last_rev_head {A} (l : list A) : last l = head (rev l).
Proof.
  induction l as [|x l IH] using rev_ind; [reflexivity|].
  by rewrite last_snoc, rev_app_distr.
Qed.

(** What [trim] leaves, when it leaves something, has no whitespace at
    either end. *)
Lemma trim_trimmed (s : jsstring) : trim s <> [] -> trimmed (trim s).
Proof.
  intros Hne. split; [assumption|]. unfold trim, trimEnd, trimStart in *. split.
  - intros c Hc.
    destruct (dropWhile_split isWhiteSpace (rev (dropWhile isWhiteSpace s)))
      as (pre & Hsplit & _).
    apply (f_equal (@rev N)) in Hsplit. rewrite rev_involutive, rev_app_distr in Hsplit.
    destruct (rev (dropWhile isWhiteSpace (rev (dropWhile isWhiteSpace s))))
      as [|x t] eqn:Ht; [discriminate Hc|].
    injection Hc as ->. simpl in Hsplit.
    by apply dropWhile_head in Hsplit.
  - intros c Hc. rewrite last_rev_head, rev_involutive in Hc.
    destruct (dropWhile isWhiteSpace (rev (dropWhile isWhiteSpace s)))
      as [|x t] eqn:Ht; [discriminate Hc|].
    injection Hc as ->. by apply dropWhile_head in Ht.
Qed.

Lemma blank_truthy_trim (s : jsstring) :
  truthy (trim s) = negb (bool_decide (blank s)).
Proof.
  destruct (truthy (trim s)) eqn:Ht; symmetry.
  - apply negb_true_iff, bool_decide_eq_false. intros Hb.
    apply trim_nil_blank in Hb. by rewrite Hb in Ht.
  - apply negb_false_iff, bool_decide_eq_true, trim_nil_blank. by apply truthy_false.
Qed.

(** X1. [handleSubmit] never asks the validator about a blank entry, and what
    it asks about is trimmed: every text passed to [asValidURL] is non-empty
    and neither starts nor ends with whitespace, and there is one such call
    for each entry that is not empty or whitespace-only. *)
Theorem X1_validated_texts_are_trimmed
    (asValidURL : jsstring -> bool -> option jsstring) (links : list WebInputData) :
  Forall (fun v => trimmed (fst v)) (validations (calls (handleSubmit asValidURL links))) /\
  length (validations (calls (handleSubmit asValidURL links)))
    = length (List.filter (fun link => negb (bool_decide (blank (url link)))) links).
Proof.
  rewrite validations_handleSubmit. split.
  - apply Forall_forall. intros v Hv. apply list_elem_of_In, in_map_iff in Hv.
    destruct Hv as (link & <- & Hin). apply filter_In in Hin as [_ Ht].
    apply trim_trimmed. by apply truthy_true.
  - rewrite length_map. f_equal. apply List.filter_ext. intros link.
    apply blank_truthy_trim.
Qed.

Lemma cleaned_urls_nonempty
    (asValidURL : jsstring -> bool -> option jsstring) (links : list WebInputData) :
  Forall (fun d => url d <> []) (cleaned asValidURL links).
Proof.
  apply Forall_forall. intros d Hd. apply list_elem_of_In, in_map_iff in Hd.
  destruct Hd as (link & <- & Hin). apply filter_In in Hin as [_ Hp].
  unfold passes in Hp. apply andb_true_iff in Hp as [_ Hp]. simpl.
  destruct (asValidURL (trim (url link)) true) as [u|]; simpl in *; [|discriminate].
  by apply truthy_true.
Qed.

(** X2. Whatever the validator returns, a list handed to [onWebLinks] is
    never empty and holds no empty url. *)
Theorem X2_handed_urls_nonempty
    (asValidURL : jsstring -> bool -> option jsstring) (links : list WebInputData) :
  Forall (fun urls => urls <> [] /\ Forall (fun d => url d <> []) urls)
         (webLinksHanded (calls (handleSubmit asValidURL links))).
Proof.
  rewrite webLinksHanded_handleSubmit.
  pose proof (cleaned_urls_nonempty asValidURL links) as Hall.
  destruct (cleaned asValidURL links) as [|d l]; constructor; [|constructor].
  split; [discriminate | exact Hall].
Qed.

Lemma cleaned_app
    (asValidURL : jsstring -> bool -> option jsstring) (l1 l2 : list WebInputData) :
  cleaned asValidURL (l1 ++ l2) = cleaned asValidURL l1 ++ cleaned asValidURL l2.
Proof. unfold cleaned. by rewrite List.filter_app, map_app. Qed.

(** X3. Entries are cleaned independently of one another: the list that the
    [reduce] of [handleSubmit] builds for links placed one after the other is
    the one built for the first followed by the one built for the second, and
    an accumulator only comes in front. *)
Theorem X3_cleaning_distributes_over_append
    (asValidURL : jsstring -> bool -> option jsstring)
    (l1 l2 acc : list WebInputData) :
  result (reduce (cleanStep asValidURL) (l1 ++ l2) acc)
    = acc ++ result (reduce (cleanStep asValidURL) l1 [])
          ++ result (reduce (cleanStep asValidURL) l2 []).
Proof.
  rewrite !reduce_cleanStep_result. simpl. by rewrite cleaned_app.
Qed.

(** X4. Submitting never touches the form: [handleSubmit] makes no call that
    changes the field array, and at most one snackbar call. *)
Theorem X4_submit_leaves_fields_alone
    (asValidURL : jsstring -> bool -> option jsstring) (links : list WebInputData) :
  Forall (fun c => isFieldOp c = false) (calls (handleSubmit asValidURL links)) /\
  length (List.filter isSnackbar (calls (handleSubmit asValidURL links))) <= 1.
Proof.
  rewrite handleSubmit_calls. split.
  - apply Forall_app. split.
    + apply Forall_forall. intros c Hc. apply list_elem_of_In, in_map_iff in Hc.
      by destruct Hc as (link & <- & _).
    + destruct (cleaned asValidURL links); repeat constructor.
  - rewrite List.filter_app, length_app.
    replace (List.filter isSnackbar (map _ (List.filter _ links))) with (@nil call).
    + destruct (cleaned asValidURL links); simpl; lia.
    + induction (List.filter _ links) as [|x l IH]; [reflexivity | exact IH].
Qed.

(** ** Further properties of handleAddUrl *)

Lemma not_refused (newUrl : jsstring) (fields : list WebInputData) :
  refused newUrl fields = false <->
  length fields < MAX_URLS /\ ~ In newUrl (map url fields).
Proof.
  unfold refused. rewrite orb_false_iff, negb_false_iff, canAddMoreUrls_true.
  rewrite <- existsb_url, not_true_iff_false. reflexivity.
Qed.



Lemma map_url_insert (fields : list WebInputData) (k : nat) (d : WebInputData) :
  map url (<[k := d]> fields) = <[k := url d]> (map url fields).
Proof.
  revert k. induction fields as [|x l IH]; intros [|k]; simpl; try reflexivity.
  by rewrite IH.
Qed.

Lemma in_insert {A} (l : list A) (k : nat) (x y : A) :
  In y (<[k := x]> l) -> y = x \/ In y l.
Proof.
  revert k. induction l as [|z l IH]; intros [|k]; simpl; try tauto.
  - intros [H|H]; auto.
  - intros [H|H]; [auto|]. destruct (IH k H); auto.
Qed.

Lemma NoDup_insert_fresh {A} (l : list A) (k : nat) (x : A) :
  ~ In x l -> List.NoDup l -> List.NoDup (<[k := x]> l).
Proof.
  revert k. induction l as [|z l IH]; intros k Hx Hnd; [by destruct k|].
  inversion Hnd as [|? ? Hz Hl]; subst.
  destruct k as [|k]; simpl.
  - constructor; [|assumption]. intros H. apply Hx. by right.
  - constructor.
    + intros H. apply in_insert in H as [->|H]; [|contradiction].
      apply Hx. by left.
    + apply IH; [|assumption]. intros H. apply Hx. by right.
Qed.

Lemma NoDup_snoc_fresh {A} (l : list A) (x : A) :
  ~ In x l -> List.NoDup l -> List.NoDup (l ++ [x]).
Proof.
  intros Hx Hnd. induction Hnd as [|z l Hz Hl IH]; simpl.
  - constructor; [intros [] | constructor].
  - constructor.
    + intros H. apply in_app_or in H as [H|[->|[]]]; [contradiction|].
      apply Hx. by left.
    + apply IH. intros H. apply Hx. by right.
Qed.

(** X6. As long as nothing was typed since the last array operation, so that
    [formFields] holds the values of the form, quick-add creates no
    duplicate: pairwise distinct urls are pairwise distinct afterwards, and
    the snapshot is current again. *)
Theorem X6_quick_add_keeps_urls_distinct
    (newUrl : jsstring) (fields : list WebInputData) :
  List.NoDup (map url fields) ->
  exists fields', quickAdd newUrl (synced fields) = Some (synced fields') /\
                  List.NoDup (map url fields').
Proof.
  intros Hnd. rewrite quickAdd_synced. eexists. split; [reflexivity|].
  destruct (refused newUrl fields) eqn:Hr; [assumption|].
  apply not_refused in Hr as [_ Hnew].
  destruct (list_find _ fields) as [[k y]|].
  - rewrite map_url_insert. by apply NoDup_insert_fresh.
  - rewrite map_app. by apply NoDup_snoc_fresh.
Qed.

Lemma X6_quick_add_keeps_urls_distinct_witness :
  exists fields',
    quickAdd (js "b.org") (synced [mkWebInputData (js "a.com"); mkWebInputData []])
      = Some (synced fields') /\
    List.NoDup (map url fields').
Proof.
  apply (X6_quick_add_keeps_urls_distinct (js "b.org")
           [mkWebInputData (js "a.com"); mkWebInputData []]).
  simpl. constructor; [|constructor; [intros [] | constructor]].
  intros [H|[]]. discriminate H.
Defined.

(** X7. [handleAddUrl] makes exactly one call: a snackbar when the quick-add
    is refused, and then no field operation; a field operation when it is
    accepted, and then no snackbar. *)
Theorem X7_quick_add_one_call (fields : list WebInputData) (newUrl : jsstring) :
  length (calls (handleAddUrl fields newUrl)) = 1 /\
  existsb isSnackbar (calls (handleAddUrl fields newUrl)) = refused newUrl fields /\
  existsb isFieldOp (calls (handleAddUrl fields newUrl)) = negb (refused newUrl fields).
Proof.
  rewrite handleAddUrl_calls. unfold refused.
  destruct (negb (canAddMoreUrls fields)); [by repeat split|].
  destruct (existsb _ fields); [by repeat split|].
  destruct (list_find _ fields) as [[k y]|]; by repeat split.
Qed.

(** X8. What an accepted quick-add does: with fewer than [MAX_URLS] fields
    and the url not in [formFields], the value at the index of the first
    blank field of [formFields] is replaced, whatever has been typed there;
    without a blank field in [formFields] the url is appended to the values.
    Afterwards the snapshot is current. *)
Theorem X8_accepted_quick_add_follows_snapshot
    (newUrl : jsstring) (fa : FieldArray) :
  length (fa_fields fa) = length (fa_values fa) ->
  length (fa_fields fa) < MAX_URLS ->
  ~ In newUrl (map url (fa_fields fa)) ->
  quickAdd newUrl fa =
  Some (synced
          match list_find (fun field => blank (url field)) (fa_fields fa) with
          | Some (k, _) => <[k := mkWebInputData newUrl]> (fa_values fa)
          | None => fa_values fa ++ [mkWebInputData newUrl]
          end).
Proof.
  intros Hlen Hlt Hnew. rewrite quickAdd_defined by assumption.
  assert (refused newUrl (fa_fields fa) = false) as -> by (by apply not_refused).
  by destruct (list_find _ (fa_fields fa)) as [[k y]|].
Qed.

Lemma X8_accepted_quick_add_follows_snapshot_witness :
  quickAdd (js "b.org") (mkFieldArray [mkWebInputData []] [mkWebInputData (js "a.com")])
  = Some (synced [mkWebInputData (js "b.org")]).
Proof.
  refine (eq_trans (X8_accepted_quick_add_follows_snapshot (js "b.org")
            (mkFieldArray [mkWebInputData []] [mkWebInputData (js "a.com")]) _ _ _) _).
  - reflexivity.
  - unfold MAX_URLS. simpl. lia.
  - simpl. intros [H|[]]. discriminate H.
  - simpl. destruct (decide (blank [])) as [_|Hb]; [reflexivity|].
    exfalso. apply Hb. constructor.
Defined.

Lemma quickAddAll_cons (newUrl : jsstring) (urls : list jsstring)
    (fa fa' : FieldArray) :
  quickAdd newUrl fa = Some fa' ->
  quickAddAll (newUrl :: urls) fa = quickAddAll urls fa'.
Proof. intros H. unfold quickAddAll. simpl. by rewrite H. Qed.

(** Chips clicked on a form without blank fields append, up to the maximum. *)
Lemma quickAddAll_fresh (urls : list jsstring) (fields : list WebInputData) :
  Forall (fun field => ~ blank (url field)) fields ->
  Forall (fun u => ~ blank u) urls ->
  length fields <= MAX_URLS ->
  List.NoDup (map url fields ++ urls) ->
  quickAddAll urls (synced fields)
  = Some (synced (take MAX_URLS (fields ++ map mkWebInputData urls))).
Proof.
  revert fields. induction urls as [|u urls IH]; intros fields Hf Hu Hlen Hnd.
  - unfold quickAddAll. simpl. by rewrite app_nil_r, take_ge.
  - inversion Hu as [|? ? Hub Hurls]; subst.
    destruct (decide (length fields < MAX_URLS)) as [Hlt|Hge].
    + assert (Hadd : quickAdd u (synced fields)
                     = Some (synced (fields ++ [mkWebInputData u]))).
      { rewrite quickAdd_synced.
        assert (refused u fields = false) as ->.
        { apply not_refused. split; [assumption|].
          apply NoDup_remove_2 in Hnd. intros H. apply Hnd, in_or_app. by left. }
        assert (list_find (fun field => blank (url field)) fields = None) as ->
          by (by apply list_find_None).
        reflexivity. }
      rewrite (quickAddAll_cons _ _ _ _ Hadd), IH.
      * simpl. by rewrite <- app_assoc.
      * apply Forall_app. split; [assumption|]. by constructor.
      * assumption.
      * rewrite length_app. simpl. lia.
      * rewrite map_app. simpl. by rewrite <- app_assoc.
    + assert (Hadd : quickAdd u (synced fields) = Some (synced fields)).
      { rewrite quickAdd_synced. unfold refused.
        assert (canAddMoreUrls fields = false) as ->
          by (apply canAddMoreUrls_false; lia).
        reflexivity. }
      rewrite (quickAddAll_cons _ _ _ _ Hadd), IH; try assumption.
      * by rewrite !take_app_le by lia.
      * by apply NoDup_remove_1 in Hnd.
Qed.

(** X9. Clicking the chips of pairwise distinct, non-blank urls one after the
    other on the freshly mounted form, nothing being typed, fills the form
    (fields and values) with the first
    [MAX_URLS] of them, in order: the first click uses the initial empty
    field, the next ones append, and the ones past the maximum are refused. *)
Theorem X9_chips_fill_the_form (urls : list jsstring) :
  urls <> [] ->
  List.NoDup urls ->
  Forall (fun u => ~ blank u) urls ->
  quickAddAll urls (synced initialLinks)
  = Some (synced (map mkWebInputData (take MAX_URLS urls))).
Proof.
  intros Hne Hnd Hnb. destruct urls as [|u urls]; [contradiction|].
  inversion Hnb as [|? ? Hu _]; subst.
  assert (Hadd : quickAdd u (synced initialLinks) = Some (synced [mkWebInputData u])).
  { rewrite quickAdd_synced.
    assert (refused u initialLinks = false) as ->.
    { apply not_refused. split; [unfold MAX_URLS; simpl; lia|].
      intros [H|[]]. simpl in H. subst u. apply Hu. constructor. }
    simpl. destruct (decide (blank [])) as [_|Hb]; [reflexivity|].
    exfalso. apply Hb. constructor. }
  rewrite (quickAddAll_cons _ _ _ _ Hadd), quickAddAll_fresh.
  - change ([mkWebInputData u] ++ map mkWebInputData urls)
      with (map mkWebInputData (u :: urls)).
    by rewrite firstn_map.
  - by repeat constructor.
  - by inversion Hnb.
  - unfold MAX_URLS. simpl. lia.
  - exact Hnd.
Qed.

Lemma X9_chips_fill_the_form_witness :
  quickAddAll [js "a.com"; js "b.org"; js "c.net"; js "d.io"; js "e.dev"; js "f.app"]
              (synced initialLinks)
  = Some (synced (map mkWebInputData
                    [js "a.com"; js "b.org"; js "c.net"; js "d.io"; js "e.dev"])).
Proof.
  apply (X9_chips_fill_the_form
           [js "a.com"; js "b.org"; js "c.net"; js "d.io"; js "e.dev"; js "f.app"]).
  - discriminate.
  - repeat (constructor; [simpl; intuition discriminate|]). constructor.
  - repeat constructor; intros H; apply trim_nil_blank in H; vm_compute in H;
      discriminate H.
Defined.

(** X10. No handler writes outside the field array: in a form with as many
    values as fields, as every reachable one has, whatever control the user
    operates, the calls of its handler are defined; they leave as many
    values as fields again and change their number by at most one. *)
Theorem X10_handlers_stay_in_range
    (asValidURL : jsstring -> bool -> option jsstring)
    (extractUrlsFromText : jsstring -> list jsstring)
    (extractYoutubeVideoIDFromURL : jsstring -> option jsstring)
    (composerText : jsstring) (st : FormState) (c : control) (handler : M unit) :
  length (formFields st) = length (formValues st) ->
  fire asValidURL extractUrlsFromText extractYoutubeVideoIDFromURL composerText st c
    = Some handler ->
  exists fa',
    fieldArray_calls (calls handler) (fieldArray_of st) = Some fa' /\
    length (fa_fields fa') = length (fa_values fa') /\
    length (formValues st) - 1 <= length (fa_values fa') <= S (length (formValues st)).
Proof.
  intros Hlen Hfire. destruct c as [index|index value|index| |].
  - apply fire_ChipClick in Hfire as [newUrl ->].
    change (exists fa', quickAdd newUrl (fieldArray_of st) = Some fa' /\
              length (fa_fields fa') = length (fa_values fa') /\
              length (formValues st) - 1 <= length (fa_values fa')
                <= S (length (formValues st))).
    destruct (quickAdd newUrl (fieldArray_of st)) as [fa'|] eqn:Hq;
      [|by rewrite quickAdd_defined in Hq].
    exists fa'. split; [reflexivity|].
    apply quickAdd_length in Hq; [|exact Hlen]. simpl in Hq. lia.
  - apply fire_InputChange in Hfire as [Hi ->]. simpl.
    destruct (decide (index < length (formValues st))); [|lia].
    eexists. split; [reflexivity|]. simpl. rewrite length_insert. lia.
  - apply fire_RemoveClick in Hfire as (_ & Hi & ->). simpl.
    eexists. split; [reflexivity|]. simpl.
    rewrite length_delete by (apply lookup_lt_is_Some; lia). lia.
  - apply fire_AnotherClick in Hfire as [_ ->]. simpl.
    eexists. split; [reflexivity|]. simpl. rewrite length_app. simpl. lia.
  - apply fire_ImportClick in Hfire as ->.
    rewrite fieldArray_calls_formHandleSubmit. eexists. split; [reflexivity|].
    simpl. lia.
Qed.

Lemma X10_handlers_stay_in_range_witness :
  exists fa',
    fieldArray_calls (calls (emit (formFieldsRemove 1)))
      (mkFieldArray [mkWebInputData []; mkWebInputData []]
                    [mkWebInputData (js "a.com"); mkWebInputData []]) = Some fa' /\
    length (fa_fields fa') = length (fa_values fa') /\
    2 - 1 <= length (fa_values fa') <= 3.
Proof.
  apply (X10_handlers_stay_in_range asValidURL_spec (fun _ => []) (fun _ => None) []
           (mkFormState [mkWebInputData []; mkWebInputData []]
                        [mkWebInputData (js "a.com"); mkWebInputData []] true true)
           (RemoveClick 1) (emit (formFieldsRemove 1))).
  - reflexivity.
  - reflexivity.
Defined.

(** ** Further properties of useWebInputModal *)

Lemma run_is_render
    (asValidURL : jsstring -> bool -> option jsstring)
    (args : nat * jsstring) (es : list hookEvent) :
  exists st a, fst (run asValidURL (mount args) es) = render st a.
Proof.
  destruct es as [|e es _] using rev_ind.
  - eexists _, _. reflexivity.
  - rewrite run_snoc. eexists _, _. reflexivity.
Qed.

(** A render with the dependencies of the last one reuses its element. *)
Lemma render_memo_hit (st : HookState) (a : nat * jsstring) (composerText : jsstring) :
  webInputDialogComponent (rendered (render (hook (render st a)) (fst a, composerText)))
  = webInputDialogComponent (rendered (render st a)).
Proof.
  unfold render, useWebInputModal. cbn [hook rendered webInputDialogComponent fst snd
    open memo].
  unfold useMemo at 1. by destruct (decide _).
Qed.

(** X11. The dialog element is a snapshot: a render of the hook with the same
    callback returns the element of the render before, whatever the composer
    text has become, so an open dialog keeps the text it was created with. *)
Theorem X11_rerender_keeps_dialog_element
    (asValidURL : jsstring -> bool -> option jsstring)
    (args : nat * jsstring) (es : list hookEvent) (composerText : jsstring) :
  webInputDialogComponent
    (rendered (after asValidURL (fst (run asValidURL (mount args) es))
                 (ParentRender (fst (hookArgs (fst (run asValidURL (mount args) es))))
                               composerText)))
  = webInputDialogComponent (rendered (fst (run asValidURL (mount args) es))).
Proof.
  destruct (run_is_render asValidURL args es) as (st & a & ->).
  unfold after. cbn [handle foldl]. apply render_memo_hit.
Qed.

(** X12. Opening a closed dialog creates the element from the latest render:
    it carries the composer text and the callback the hook was last called
    with, and its [onClose] resets the open state. *)
Theorem X12_opening_takes_latest_arguments
    (asValidURL : jsstring -> bool -> option jsstring)
    (args : nat * jsstring) (es : list hookEvent) :
  open (hook (fst (run asValidURL (mount args) es))) = false ->
  exists p,
    webInputDialogComponent
      (rendered (after asValidURL (fst (run asValidURL (mount args) es))
                   OpenWebInputDialog)) = Some p /\
    props_composerText p = snd (hookArgs (fst (run asValidURL (mount args) es))) /\
    props_onClose p = [setOpen false] /\
    props_onWebLinks p =
      (fun urls =>
         [onAttachWebLinks (fst (hookArgs (fst (run asValidURL (mount args) es)))) urls]).
Proof.
  destruct (run_is_render asValidURL args es) as (st & a & ->).
  unfold after, render, useWebInputModal. simpl. intros Hclosed.
  unfold useMemo. rewrite Hclosed.
  destruct (decide ((fst a, false) = (fst a, true))) as [[=]|_].
  eexists. repeat split.
Qed.

Lemma X12_opening_takes_latest_arguments_witness :
  exists p,
    webInputDialogComponent
      (rendered (after asValidURL_spec
                   (fst (run asValidURL_spec (mount (0, js "draft"))
                           [OpenWebInputDialog; DialogClose;
                            ParentRender 7 (js "see big-agi.com")]))
                   OpenWebInputDialog)) = Some p /\
    props_composerText p = js "see big-agi.com" /\
    props_onClose p = [setOpen false] /\
    props_onWebLinks p = (fun urls => [onAttachWebLinks 7 urls]).
Proof.
  apply (X12_opening_takes_latest_arguments asValidURL_spec (0, js "draft")
           [OpenWebInputDialog; DialogClose; ParentRender 7 (js "see big-agi.com")]).
  reflexivity.
Defined.

(** X13. A submit through the hook: when no entry is valid the hook sees no
    call and the dialog stays; otherwise the callback of the latest render
    is called once with the cleaned links, the open state is reset after it,
    and the dialog is gone. *)
Theorem X13_submit_through_hook
    (asValidURL : jsstring -> bool -> option jsstring)
    (args : nat * jsstring) (es : list hookEvent) (links : list WebInputData) :
  open (hook (fst (run asValidURL (mount args) es))) = true ->
  handle asValidURL (fst (run asValidURL (mount args) es)) (DialogSubmit links)
    = match cleaned asValidURL links with
      | [] => []
      | _ :: _ =>
          [onAttachWebLinks (fst (hookArgs (fst (run asValidURL (mount args) es))))
                            (cleaned asValidURL links);
           setOpen false]
      end /\
  (is_Some (webInputDialogComponent
              (rendered (after asValidURL (fst (run asValidURL (mount args) es))
                           (DialogSubmit links))))
   <-> cleaned asValidURL links = []).
Proof.
  intros Hopen. destruct (run_ok asValidURL args es) as [Hok _].
  set (m := fst (run asValidURL (mount args) es)) in *.
  pose proof (handle_DialogSubmit asValidURL m links Hok) as Hh.
  rewrite Hopen in Hh. split; [exact Hh|].
  rewrite (component_open _ (after_ok asValidURL m (DialogSubmit links) Hok)).
  rewrite open_after, Hh, Hopen by assumption.
  destruct (cleaned asValidURL links); simpl; split; congruence.
Qed.

Lemma X13_submit_through_hook_witness :
  handle asValidURL_spec
    (fst (run asValidURL_spec (mount (3, js "draft")) [OpenWebInputDialog]))
    (DialogSubmit [mkWebInputData (js " big-agi.com"); mkWebInputData (js "  ")])
  = [onAttachWebLinks 3 [mkWebInputData (js "https://big-agi.com")]; setOpen false] /\
  (is_Some (webInputDialogComponent
              (rendered (after asValidURL_spec
                 (fst (run asValidURL_spec (mount (3, js "draft")) [OpenWebInputDialog]))
                 (DialogSubmit [mkWebInputData (js " big-agi.com");
                                mkWebInputData (js "  ")]))))
   <-> cleaned asValidURL_spec
         [mkWebInputData (js " big-agi.com"); mkWebInputData (js "  ")] = []).
Proof.
  apply (X13_submit_through_hook asValidURL_spec (3, js "draft") [OpenWebInputDialog]
           [mkWebInputData (js " big-agi.com"); mkWebInputData (js "  ")]).
  reflexivity.
Defined.

(** X14. Whatever happens to the hook, its callback only ever receives
    cleaned links: every list passed to [onAttachWebLinks] is the cleaned
    list of the links of one of the submits, is not empty and holds no empty
    url. *)
Theorem X14_callback_receives_cleaned_links
    (asValidURL : jsstring -> bool -> option jsstring)
    (args : nat * jsstring) (es : list hookEvent)
    (callback : nat) (urls : list WebInputData) :
  In (onAttachWebLinks callback urls) (snd (run asValidURL (mount args) es)) ->
  urls <> [] /\ Forall (fun d => url d <> []) urls /\
  exists links, In (DialogSubmit links) es /\ urls = cleaned asValidURL links.
Proof.
  induction es as [|e es IH] using rev_ind; [intros []|].
  rewrite run_snoc. cbn [snd]. intros Hin.
  apply in_app_or in Hin as [Hin|Hin].
  { destruct (IH Hin) as (Hne & Hall & links & Hsub & Heq).
    split; [assumption|]. split; [assumption|]. exists links.
    split; [apply in_or_app; by left | assumption]. }
  clear IH. destruct (run_ok asValidURL args es) as [Hok _].
  set (m := fst (run asValidURL (mount args) es)) in *.
  destruct e as [cb text| | |links].
  - destruct Hin.
  - destruct Hok as (_ & _ & Hopen). simpl in Hin. rewrite Hopen in Hin.
    destruct Hin as [[=]|[]].
  - rewrite handle_DialogClose in Hin by assumption.
    destruct (open (hook m)); [destruct Hin as [[=]|[]] | destruct Hin].
  - rewrite handle_DialogSubmit in Hin by assumption.
    destruct (open (hook m)); [|destruct Hin].
    pose proof (cleaned_urls_nonempty asValidURL links) as Hall.
    destruct (cleaned asValidURL links) as [|d l] eqn:Hc; [destruct Hin|].
    destruct Hin as [[= <- <-]|[[=]|[]]].
    split; [discriminate|]. split; [exact Hall|]. exists links.
    split; [apply in_or_app; right; by left | by rewrite Hc].
Qed.

Lemma X14_callback_receives_cleaned_links_witness :
  [mkWebInputData (js "https://big-agi.com")] <> [] /\
  Forall (fun d => url d <> []) [mkWebInputData (js "https://big-agi.com")] /\
  exists links,
    In (DialogSubmit links)
       [OpenWebInputDialog; DialogSubmit [mkWebInputData (js "big-agi.com")]] /\
    [mkWebInputData (js "https://big-agi.com")] = cleaned asValidURL_spec links.
Proof.
  apply (X14_callback_receives_cleaned_links asValidURL_spec (3, js "draft")
           [OpenWebInputDialog; DialogSubmit [mkWebInputData (js "big-agi.com")]] 3).
  vm_compute. right. left. reflexivity.
Defined.
